(** * BusTub storage core: LRU replacer, buffer pool manager, B+ tree pages

    A shallow embedding of
    - [src/buffer/lru_replacer.cpp],
    - [src/buffer/buffer_pool_manager.cpp],
    - [src/storage/page/b_plus_tree_internal_page.cpp],
    - [src/storage/page/b_plus_tree_leaf_page.cpp],
    with the properties of the storage specification stated against it.

    Conventions.  C++ [int], [frame_id_t] and [page_id_t] are modelled as
    [Z]; none of the modelled code does arithmetic near the 32-bit limits.
    Objects mutated in place become explicit state passing.  A [Page *]
    returned by the buffer pool is the index of the frame it points into. *)

From Stdlib Require Import ZArith List Lia Bool.
From stdpp Require Import base option list gmap.
From Equations Require Import Equations.

Local Open Scope Z_scope.

(** ** Shared types (common/config.h) *)

Abbreviation frame_id_t := Z (only parsing).
Abbreviation page_id_t := Z (only parsing).

(** Modelled from the spec: [INVALID_PAGE_ID], the sentinel of section 3
    ("a sentinel value denotes invalid/none"); the header that defines it
    is not part of the sources. *)
Definition INVALID_PAGE_ID : page_id_t := -1.

(** Modelled from the spec: [PAGE_SIZE], "conventionally 4096 bytes". *)
Definition PAGE_SIZE : nat := 4096%nat.

(** ** Outcomes of calls

    [Returned a] is a normal return.  [Threw e] is a C++ exception of the
    given [ExceptionType].  [Undefined] marks undefined behaviour of the
    C++ abstract machine (dereferencing [end()], indexing outside an
    array): the code gives no result there. *)

Inductive ExceptionType := OUT_OF_RANGE | INVALID | OUT_OF_MEMORY.

Inductive outcome (A : Type) :=
  | Returned (a : A)
  | Threw (e : ExceptionType)
  | Undefined.
Arguments Returned {A} a.
Arguments Threw {A} e.
Arguments Undefined {A}.

Definition obind {A B} (m : outcome A) (k : A -> outcome B) : outcome B :=
  match m with
  | Returned a => k a
  | Threw e => Threw e
  | Undefined => Undefined
  end.

Notation "x <~ m ;; k" := (obind m (fun x => k))
  (at level 100, m at next level, right associativity).

(** ** LRU replacer (src/buffer/lru_replacer.cpp) *)

Module LRUReplacer.

(** The only data member read by the modelled code is the vector
    [unpinned_frames]; front = least recently unpinned. *)
Record t := mk { unpinned_frames : list frame_id_t }.

(** [LRUReplacer(num_pages)]: an empty vector ([reserve] does not bound
    its size). *)
Definition create (num_pages : Z) : t := mk [].

(** [Victim(frame_id_t *frame_id)]: [Some f] stands for "[*frame_id = f],
    return true", [None] for "return false" (the out parameter is not
    written). *)
Definition Victim (r : t) : option frame_id_t * t :=
  match unpinned_frames r with
  | [] => (None, r)
  | front :: rest => (Some front, mk rest)
  end.

(** The loop of [Pin]: erase the first element equal to [frame_id],
    then [break]. *)
Fixpoint erase_first (frame_id : frame_id_t) (l : list frame_id_t)
  : list frame_id_t :=
  match l with
  | [] => []
  | x :: l' => if x =? frame_id then l' else x :: erase_first frame_id l'
  end.

Definition Pin (frame_id : frame_id_t) (r : t) : t :=
  mk (erase_first frame_id (unpinned_frames r)).

(** The loop of [Unpin]: is some element equal to [frame_id]? *)
Fixpoint already_unpinned (frame_id : frame_id_t) (l : list frame_id_t)
  : bool :=
  match l with
  | [] => false
  | x :: l' => if x =? frame_id then true else already_unpinned frame_id l'
  end.

Definition Unpin (frame_id : frame_id_t) (r : t) : t :=
  if frame_id <? 0 then r
  else if already_unpinned frame_id (unpinned_frames r) then r
  else mk (unpinned_frames r ++ [frame_id]).

Definition Size (r : t) : Z := Z.of_nat (length (unpinned_frames r)).

End LRUReplacer.

(** ** Disk manager *)

Module DiskManager.

Inductive call :=
  | ReadPageCall (page_id : page_id_t)
  | WritePageCall (page_id : page_id_t) (data : list Z)
  | AllocatePageCall (page_id : page_id_t)
  | DeallocatePageCall (page_id : page_id_t).

(** Modelled from the spec: the disk manager collaborator of section 6;
    [disk_manager.cpp] is not part of the sources.  The file is an array
    of pages indexed by page id, [AllocatePage] hands out fresh
    identifiers, [DeallocatePage] is a no-op.  [calls] records every
    call, most recent first. *)
Record t := mk {
  file : gmap Z (list Z);
  next_page_id : page_id_t;
  calls : list call
}.

Definition create : t := mk ∅ 0 [].

Definition ReadPage (page_id : page_id_t) (d : t) : list Z * t :=
  (default (replicate PAGE_SIZE 0) (file d !! page_id),
   mk (file d) (next_page_id d) (ReadPageCall page_id :: calls d)).

Definition WritePage (page_id : page_id_t) (data : list Z) (d : t) : t :=
  mk (<[page_id := data]> (file d)) (next_page_id d)
     (WritePageCall page_id data :: calls d).

Definition AllocatePage (d : t) : page_id_t * t :=
  (next_page_id d,
   mk (file d) (next_page_id d + 1)
      (AllocatePageCall (next_page_id d) :: calls d)).

Definition DeallocatePage (page_id : page_id_t) (d : t) : t :=
  mk (file d) (next_page_id d) (DeallocatePageCall page_id :: calls d).

End DiskManager.

(** ** Buffer pool manager (src/buffer/buffer_pool_manager.cpp) *)

Module BufferPoolManager.

(** Modelled from the spec: the frame contents of section 3 (a byte
    buffer plus [page_id], [pin_count], [is_dirty]); [page.h] is not part
    of the sources. *)
Record Page := mkPage {
  data_ : list Z;
  page_id_ : page_id_t;
  pin_count_ : Z;
  is_dirty_ : bool
}.

Definition fresh_page : Page :=
  mkPage (replicate PAGE_SIZE 0) INVALID_PAGE_ID 0 false.

Definition ResetMemory (p : Page) : Page :=
  mkPage (replicate PAGE_SIZE 0) (page_id_ p) (pin_count_ p) (is_dirty_ p).

Record t := mk {
  pool_size_ : Z;
  pages_ : list Page;
  page_table_ : gmap Z Z;
  free_list_ : list frame_id_t;
  replacer_ : LRUReplacer.t;
  disk_manager_ : DiskManager.t
}.

(** [pages_[f]]: indexing outside the array is undefined. *)
Definition page_at (s : t) (f : frame_id_t) : outcome Page :=
  if f <? 0 then Undefined
  else match pages_ s !! Z.to_nat f with
       | Some p => Returned p
       | None => Undefined
       end.

Definition set_page (f : frame_id_t) (p : Page) (s : t) : t :=
  mk (pool_size_ s) (<[Z.to_nat f := p]> (pages_ s)) (page_table_ s)
     (free_list_ s) (replacer_ s) (disk_manager_ s).

Definition set_page_table (pt : gmap Z Z) (s : t) : t :=
  mk (pool_size_ s) (pages_ s) pt (free_list_ s) (replacer_ s)
     (disk_manager_ s).

Definition set_free_list (fl : list frame_id_t) (s : t) : t :=
  mk (pool_size_ s) (pages_ s) (page_table_ s) fl (replacer_ s)
     (disk_manager_ s).

Definition set_replacer (r : LRUReplacer.t) (s : t) : t :=
  mk (pool_size_ s) (pages_ s) (page_table_ s) (free_list_ s) r
     (disk_manager_ s).

Definition set_disk_manager (d : DiskManager.t) (s : t) : t :=
  mk (pool_size_ s) (pages_ s) (page_table_ s) (free_list_ s)
     (replacer_ s) d.

(** [std::unordered_map::insert]: keeps the old mapping when the key is
    already present. *)
Definition umap_insert (k v : Z) (m : gmap Z Z) : gmap Z Z :=
  match m !! k with
  | Some _ => m
  | None => <[k := v]> m
  end.

(** The constructor: every frame starts in the free list. *)
Definition create (pool_size : nat) (disk_manager : DiskManager.t) : t :=
  mk (Z.of_nat pool_size) (replicate pool_size fresh_page) ∅
     (seqZ 0 (Z.of_nat pool_size))
     (LRUReplacer.create (Z.of_nat pool_size)) disk_manager.

(** [FetchPageImpl]: [Some f] is the returned pointer [&pages_[f]],
    [None] is [nullptr]. *)
Definition FetchPageImpl (page_id : page_id_t) (s : t)
  : outcome (option frame_id_t * t) :=
  match page_table_ s !! page_id with
  | Some f_id =>
      retPage <~ page_at s f_id ;;
      let s := set_page f_id
                 (mkPage (data_ retPage) (page_id_ retPage)
                         (pin_count_ retPage + 1) (is_dirty_ retPage)) s in
      let s := set_replacer (LRUReplacer.Pin f_id (replacer_ s)) s in
      Returned (Some f_id, s)
  | None =>
      match free_list_ s with
      | page_frame_id :: rest =>
          let s := set_free_list rest s in
          let s := set_page_table
                     (umap_insert page_id page_frame_id (page_table_ s)) s in
          replPage <~ page_at s page_frame_id ;;
          let s := set_replacer
                     (LRUReplacer.Pin page_frame_id (replacer_ s)) s in
          let '(buf, d) := DiskManager.ReadPage page_id (disk_manager_ s) in
          let s := set_disk_manager d s in
          let s := set_page page_frame_id (mkPage buf page_id 1 false) s in
          Returned (Some page_frame_id, s)
      | [] =>
          match LRUReplacer.Victim (replacer_ s) with
          | (None, _) => Returned (None, s)
          | (Some page_frame_id, r) =>
              let s := set_replacer r s in
              replPage <~ page_at s page_frame_id ;;
              let s :=
                if is_dirty_ replPage
                then set_disk_manager
                       (DiskManager.WritePage (page_id_ replPage)
                          (data_ replPage) (disk_manager_ s)) s
                else s in
              (* erase(find(..)): erasing end() is undefined *)
              match page_table_ s !! page_id_ replPage with
              | None => Undefined
              | Some _ =>
                  let s := set_page_table
                             (delete (page_id_ replPage) (page_table_ s)) s in
                  let s := set_page_table
                             (umap_insert page_id page_frame_id
                                (page_table_ s)) s in
                  let s := set_replacer
                             (LRUReplacer.Pin page_frame_id (replacer_ s))
                             s in
                  let '(buf, d) :=
                    DiskManager.ReadPage page_id (disk_manager_ s) in
                  let s := set_disk_manager d s in
                  let s := set_page page_frame_id
                             (mkPage buf page_id 1 false) s in
                  Returned (Some page_frame_id, s)
              end
          end
      end
  end.

(** [UnpinPageImpl].  [page_table_.find(page_id)->second] dereferences
    the iterator without comparing it with [end()]. *)
Definition UnpinPageImpl (page_id : page_id_t) (is_dirty : bool) (s : t)
  : outcome (bool * t) :=
  match page_table_ s !! page_id with
  | None => Undefined
  | Some unpinned_frame_id =>
      unpinned_page <~ page_at s unpinned_frame_id ;;
      if pin_count_ unpinned_page <=? 0 then Returned (false, s)
      else
        let victim_frame := unpinned_frame_id in
        let s := set_replacer
                   (LRUReplacer.Unpin victim_frame (replacer_ s)) s in
        let s :=
          if is_dirty
          then set_page unpinned_frame_id
                 (mkPage (data_ unpinned_page) (page_id_ unpinned_page)
                         (pin_count_ unpinned_page) true) s
          else s in
        Returned (true, s)
  end.

(** [FlushPageImpl]: the body takes and releases the latch and returns
    false. *)
Definition FlushPageImpl (page_id : page_id_t) (s : t)
  : outcome (bool * t) :=
  Returned (false, s).

(** [NewPageImpl]: the result carries the value written to [*page_id]
    together with the returned pointer. *)
Definition NewPageImpl (s : t)
  : outcome (option (page_id_t * frame_id_t) * t) :=
  if bool_decide (free_list_ s = []) && (LRUReplacer.Size (replacer_ s) =? 0)
  then Returned (None, s)
  else
    let '(new_page_id, d) := DiskManager.AllocatePage (disk_manager_ s) in
    let s := set_disk_manager d s in
    let install (frame_id : frame_id_t) (s : t) :=
      page <~ page_at s frame_id ;;
      let page := ResetMemory page in
      let s := set_page frame_id
                 (mkPage (data_ page) new_page_id 1 false) s in
      let s := set_page_table (<[new_page_id := frame_id]> (page_table_ s))
                 s in
      let s := set_replacer (LRUReplacer.Pin frame_id (replacer_ s)) s in
      Returned (Some (new_page_id, frame_id), s) in
    match free_list_ s with
    | frame_id :: rest => install frame_id (set_free_list rest s)
    | [] =>
        match LRUReplacer.Victim (replacer_ s) with
        | (None, _) => Returned (None, s)
        | (Some frame_id, r) =>
            let s := set_replacer r s in
            page <~ page_at s frame_id ;;
            let s :=
              if is_dirty_ page
              then set_disk_manager
                     (DiskManager.WritePage (page_id_ page) (data_ page)
                        (disk_manager_ s)) s
              else s in
            let s := set_page_table
                       (delete (page_id_ page) (page_table_ s)) s in
            install frame_id s
        end
    end.

(** [DeletePageImpl]: the body is the single statement [return false]. *)
Definition DeletePageImpl (page_id : page_id_t) (s : t)
  : outcome (bool * t) :=
  Returned (false, s).

(** [FlushAllPagesImpl]: empty body. *)
Definition FlushAllPagesImpl (s : t) : outcome t := Returned s.

(** The invariant of section 8: a resident frame is in the replacer
    exactly when its pin count is 0. *)
Definition in_replacer (f : frame_id_t) (s : t) : Prop :=
  f ∈ LRUReplacer.unpinned_frames (replacer_ s).

Definition replacer_invariant (s : t) : Prop :=
  ∀ (page_id : page_id_t) (f : frame_id_t) (p : Page),
    page_table_ s !! page_id = Some f →
    page_at s f = Returned p →
    (in_replacer f s ↔ pin_count_ p = 0).

End BufferPoolManager.

(** ** Arrays inside a page

    The entry array of a tree page lives in the page buffer.  It is a list
    whose length is the number of slots the buffer holds; slots at and
    after [size] keep whatever was last stored there.  C++ [int] indices
    are [Z].  Reading or writing outside the buffer is undefined in C++;
    [array_get] and [array_set] are total (a read yields [dflt], a write
    does nothing), and the statements below that depend on such an access
    assume the indices lie inside the buffer. *)

Section Arrays.
Context {E : Type} (dflt : E).

Definition array_get (a : list E) (i : Z) : E :=
  if i <? 0 then dflt else nth (Z.to_nat i) a dflt.

Definition array_set (a : list E) (i : Z) (x : E) : list E :=
  if i <? 0 then a else <[Z.to_nat i := x]> a.

(** [for (int i = lo; i < hi; i++) body] *)
Definition for_up {S : Type} (lo hi : Z) (body : Z -> S -> S) (s : S) : S :=
  foldl (fun s i => body i s) s (seqZ lo (hi - lo)).

(** [for (int i = hi; i > lo; i--) body] *)
Definition for_down {S : Type} (hi lo : Z) (body : Z -> S -> S) (s : S)
  : S :=
  foldr body s (seqZ (lo + 1) (hi - lo)).

(** [for (int i = lo; i < hi; i++) if (p(i)) return i;]: the first index
    of [lo, hi) that passes the test, if the loop returns from inside. *)
Definition first_index (lo hi : Z) (p : Z -> bool) : option Z :=
  List.find p (seqZ lo (hi - lo)).

(** [for (int i = hi; i > lo; i--) array[i] = array[i - 1];] moves the
    slots [lo, hi) one place to the right, back to front. *)
Definition shift_right (hi lo : Z) (a : list E) : list E :=
  for_down hi lo (fun i a => array_set a i (array_get a (i - 1))) a.

(** [for (int i = lo; i < hi; i++) array[i] = array[i + 1];] moves the
    slots (lo, hi] one place to the left, front to back. *)
Definition shift_left (lo hi : Z) (a : list E) : list E :=
  for_up lo hi (fun i a => array_set a i (array_get a (i + 1))) a.
End Arrays.

(** ** B+ tree page header *)

Inductive IndexPageType := INVALID_INDEX_PAGE | LEAF_PAGE | INTERNAL_PAGE.

Module BPlusTreePage.

(** Modelled from the spec: the shared node header of section 3 (page
    type, size, max size, parent page id, page id) with its getters and
    setters; [b_plus_tree_page.cpp] is not part of the sources. *)
Record t := mk {
  page_type_ : IndexPageType;
  size_ : Z;
  max_size_ : Z;
  parent_page_id_ : page_id_t;
  page_id_ : page_id_t
}.

Definition SetPageType (ty : IndexPageType) (h : t) : t :=
  mk ty (size_ h) (max_size_ h) (parent_page_id_ h) (page_id_ h).
Definition SetSize (size : Z) (h : t) : t :=
  mk (page_type_ h) size (max_size_ h) (parent_page_id_ h) (page_id_ h).
Definition IncreaseSize (amount : Z) (h : t) : t :=
  SetSize (size_ h + amount) h.
Definition SetMaxSize (max_size : Z) (h : t) : t :=
  mk (page_type_ h) (size_ h) max_size (parent_page_id_ h) (page_id_ h).
Definition SetParentPageId (parent : page_id_t) (h : t) : t :=
  mk (page_type_ h) (size_ h) (max_size_ h) parent (page_id_ h).
Definition SetPageId (page_id : page_id_t) (h : t) : t :=
  mk (page_type_ h) (size_ h) (max_size_ h) (parent_page_id_ h) page_id.

End BPlusTreePage.

(** ** Internal pages (src/storage/page/b_plus_tree_internal_page.cpp) *)

Module BPlusTreeInternalPage.
Section WithKey.
(** [KeyType], [KeyComparator] (a three-way comparison returning an
    [int]) and the value-initialised key [KeyType{}] are template
    parameters; [ValueType] is [page_id_t]. *)
Context {K : Type} (comparator : K -> K -> Z) (default_key : K).

Definition MappingType : Type := K * page_id_t.

Record t := mk {
  header : BPlusTreePage.t;
  array : list MappingType
}.

Definition GetSize (n : t) : Z := BPlusTreePage.size_ (header n).
Definition GetMaxSize (n : t) : Z := BPlusTreePage.max_size_ (header n).
Definition SetSize (size : Z) (n : t) : t :=
  mk (BPlusTreePage.SetSize size (header n)) (array n).
Definition IncreaseSize (amount : Z) (n : t) : t :=
  mk (BPlusTreePage.IncreaseSize amount (header n)) (array n).
Definition set_array (a : list MappingType) (n : t) : t := mk (header n) a.

(** [array[i]]. *)
Definition at_ (n : t) (i : Z) : MappingType :=
  array_get (default_key, INVALID_PAGE_ID) (array n) i.

Definition Init (page_id parent_id : page_id_t) (max_size : Z) (n : t) : t :=
  mk (BPlusTreePage.SetParentPageId parent_id
        (BPlusTreePage.SetPageId page_id
           (BPlusTreePage.SetMaxSize max_size
              (BPlusTreePage.SetSize 0
                 (BPlusTreePage.SetPageType INTERNAL_PAGE (header n))))))
     (array n).

Definition out_of_range (n : t) (index : Z) : bool :=
  (index <? 0) || (index >=? GetSize n).

(** [KeyAt] and [ValueAt] are [const] member functions. *)
Definition KeyAt (n : t) (index : Z) : outcome K :=
  if out_of_range n index then Threw OUT_OF_RANGE
  else Returned (at_ n index).1.

(** A member function that mutates the page yields its outcome together
    with the page as the call leaves it. *)
Definition SetKeyAt (index : Z) (key : K) (n : t) : outcome unit * t :=
  if out_of_range n index then (Threw OUT_OF_RANGE, n)
  else (Returned tt,
        set_array (array_set (array n) index (key, (at_ n index).2)) n).

Definition ValueAt (n : t) (index : Z) : outcome page_id_t :=
  if out_of_range n index then Threw OUT_OF_RANGE
  else Returned (at_ n index).2.

(** [std::lower_bound(first, last, key, comp)] as the C++ standard
    library implements it: while the remaining length [len] is positive,
    take [half = len >> 1] and compare the element at [first + half] with
    the key.  Iterators are indices into [array]; [comp] is the lambda
    [comparator(pair.first, key) < 0]. *)
Equations? lower_bound (n : t) (key : K) (first len : Z) : Z
  by wf (Z.to_nat len) lt :=
  lower_bound n key first len with decide (0 < len) := {
    | left _ =>
        if comparator (at_ n (first + len / 2)).1 key <? 0
        then lower_bound n key (first + len / 2 + 1) (len - len / 2 - 1)
        else lower_bound n key first (len / 2)
    | right _ => first }.
Proof.
  - assert (0 <= len / 2) by (apply Z.div_pos; lia). lia.
  - assert (len / 2 < len) by (apply Z.div_lt; lia).
    assert (0 <= len / 2) by (apply Z.div_pos; lia). lia.
Qed.

(** [Lookup] searches the range [array + 1, array + GetSize()).  On a
    page of size 0 that range has [first > last], which the standard
    library leaves undefined; the statements about [Lookup] are for pages
    that hold at least their leftmost child. *)
Definition Lookup (n : t) (key : K) : outcome page_id_t :=
  let k_it := lower_bound n key 1 (GetSize n - 1) in
  if k_it =? GetSize n then ValueAt n (GetSize n - 1)
  else if comparator (at_ n k_it).1 key =? 0 then Returned (at_ n k_it).2
  else Returned (at_ n (k_it - 1)).2.

(** [std::move(array + index + 1, array + GetSize(), array + index)]
    copies front to back: [array[i] = array[i + 1]] for [i] from [index]
    to [GetSize() - 2]. *)
Definition Remove (index : Z) (n : t) : outcome unit * t :=
  if out_of_range n index then (Threw OUT_OF_RANGE, n)
  else
    let a := shift_left (default_key, INVALID_PAGE_ID) index
               (GetSize n - 1) (array n) in
    (Returned tt, IncreaseSize (-1) (set_array a n)).

Definition RemoveAndReturnOnlyChild (n : t) : outcome page_id_t * t :=
  if negb (GetSize n =? 1) then (Threw INVALID, n)
  else (Returned (at_ n 0).2, SetSize 0 n).

(** [ValueIndex]: the loop returns the first index whose value equals
    [value]; after the loop the function returns -1. *)
Definition ValueIndex (n : t) (value : page_id_t) : Z :=
  match first_index 0 (GetSize n) (fun i => (at_ n i).2 =? value) with
  | Some i => i
  | None => -1
  end.

(** [PopulateNewRoot] writes the value of slot 0, both halves of slot 1,
    and the size. *)
Definition PopulateNewRoot
    (old_value : page_id_t) (new_key : K) (new_value : page_id_t) (n : t)
  : t :=
  let a := array_set (array n) 0 ((at_ n 0).1, old_value) in
  let a := array_set a 1 (new_key, new_value) in
  SetSize 2 (set_array a n).

(** [InsertNodeAfter].
    [std::move_backward(array + idx, array + GetSize(), array + GetSize() + 1)]
    copies back to front: [array[i] = array[i - 1]] for [i] from
    [GetSize()] down to [idx + 1]. *)
Definition InsertNodeAfter
    (old_value : page_id_t) (new_key : K) (new_value : page_id_t) (n : t)
  : Z * t :=
  let new_value_idx := ValueIndex n old_value + 1 in
  let a := shift_right (default_key, INVALID_PAGE_ID) (GetSize n)
             new_value_idx (array n) in
  let a := array_set a new_value_idx (new_key, new_value) in
  let n := IncreaseSize 1 (set_array a n) in
  (GetSize n, n).

(** The entries a page holds: the first [size] slots of the array. *)
Definition entries (n : t) : list MappingType :=
  take (Z.to_nat (GetSize n)) (array n).

End WithKey.
End BPlusTreeInternalPage.

(** ** Leaf pages (src/storage/page/b_plus_tree_leaf_page.cpp) *)

Module BPlusTreeLeafPage.
Section WithKey.
(** [KeyType], [ValueType] (a record id), [KeyComparator] and the
    value-initialised [KeyType{}] and [ValueType{}] are template
    parameters. *)
Context {K V : Type} (comparator : K -> K -> Z)
        (default_key : K) (default_value : V).

Definition MappingType : Type := K * V.

(** [MappingType{}], also the value of the static [dummy_item]. *)
Definition dummy_item : MappingType := (default_key, default_value).

Record t := mk {
  header : BPlusTreePage.t;
  next_page_id_ : page_id_t;
  array : list MappingType
}.

Definition GetSize (n : t) : Z := BPlusTreePage.size_ (header n).
Definition GetMaxSize (n : t) : Z := BPlusTreePage.max_size_ (header n).
Definition SetSize (size : Z) (n : t) : t :=
  mk (BPlusTreePage.SetSize size (header n)) (next_page_id_ n) (array n).
Definition IncreaseSize (amount : Z) (n : t) : t :=
  mk (BPlusTreePage.IncreaseSize amount (header n)) (next_page_id_ n)
     (array n).
Definition set_array (a : list MappingType) (n : t) : t :=
  mk (header n) (next_page_id_ n) a.

Definition GetNextPageId (n : t) : page_id_t := next_page_id_ n.
Definition SetNextPageId (next_page_id : page_id_t) (n : t) : t :=
  mk (header n) next_page_id (array n).

(** [array[i]]. *)
Definition at_ (n : t) (i : Z) : MappingType :=
  array_get dummy_item (array n) i.

Definition Init (page_id parent_id : page_id_t) (max_size : Z) (n : t) : t :=
  SetNextPageId INVALID_PAGE_ID
    (mk (BPlusTreePage.SetMaxSize max_size
           (BPlusTreePage.SetParentPageId parent_id
              (BPlusTreePage.SetPageId page_id
                 (BPlusTreePage.SetSize 0
                    (BPlusTreePage.SetPageType LEAF_PAGE (header n))))))
        (next_page_id_ n) (array n)).

(** The [while (left < right)] loop of [KeyIndex].  [right - left] is
    positive where the quotient is taken, so C++ division by 2 is
    [Z.quot]. *)
Equations? KeyIndex_loop (n : t) (key : K) (left_ right_ : Z) : Z
  by wf (Z.to_nat (right_ - left_)) lt :=
  KeyIndex_loop n key left_ right_ with decide (left_ < right_) := {
    | left _ =>
        if comparator (at_ n (left_ + Z.quot (right_ - left_) 2)).1 key <? 0
        then KeyIndex_loop n key (left_ + Z.quot (right_ - left_) 2 + 1)
               right_
        else KeyIndex_loop n key left_ (left_ + Z.quot (right_ - left_) 2)
    | right _ => left_ }.
Proof.
  - rewrite Z.quot_div_nonneg by lia.
    assert (0 <= (right_ - left_) / 2) by (apply Z.div_pos; lia). lia.
  - rewrite Z.quot_div_nonneg by lia.
    assert ((right_ - left_) / 2 < right_ - left_) by (apply Z.div_lt; lia).
    lia.
Qed.

Definition KeyIndex (n : t) (key : K) : Z :=
  KeyIndex_loop n key 0 (GetSize n).

Definition out_of_range (n : t) (index : Z) : bool :=
  (index <? 0) || (index >=? GetSize n).

(** [KeyAt] is a [const] member function. *)
Definition KeyAt (n : t) (index : Z) : outcome K :=
  if out_of_range n index then Returned default_key
  else Returned (at_ n index).1.

(** [GetItem] does not write to the page. *)
Definition GetItem (n : t) (index : Z) : outcome MappingType :=
  if out_of_range n index then
    if GetSize n >? 0 then Returned (at_ n 0) else Returned dummy_item
  else Returned (at_ n index).

(** [Insert] returns the page size after the call. *)
Definition Insert (key : K) (value : V) (n : t) : Z * t :=
  let index := KeyIndex n key in
  if (index <? GetSize n) && (comparator (at_ n index).1 key =? 0)
  then (GetSize n, n)
  else if GetSize n >=? GetMaxSize n then (GetSize n, n)
  else
    (* for (int i = GetSize(); i > index; i--) array[i] = array[i - 1]; *)
    let a := shift_right dummy_item (GetSize n) index (array n) in
    let a := array_set a index (key, value) in
    let n := IncreaseSize 1 (set_array a n) in
    (GetSize n, n).

Definition CopyLastFrom (item : MappingType) (n : t) : t :=
  let current_size := GetSize n in
  if current_size >=? GetMaxSize n then n
  else IncreaseSize 1 (set_array (array_set (array n) current_size item) n).

Definition CopyFirstFrom (item : MappingType) (n : t) : t :=
  let current_size := GetSize n in
  if current_size >=? GetMaxSize n then n
  else
    (* for (int i = current_size; i > 0; i--) array[i] = array[i - 1]; *)
    let a := shift_right dummy_item current_size 0 (array n) in
    IncreaseSize 1 (set_array (array_set a 0 item) n).

(** [this->MoveFirstToEndOf(recipient)]: the pair is (this, recipient),
    two distinct pages. *)
Definition MoveFirstToEndOf (this recipient : t) : t * t :=
  if GetSize this =? 0 then (this, recipient)
  else
    let first_item := at_ this 0 in
    (* for (int i = 0; i < GetSize() - 1; i++) array[i] = array[i + 1]; *)
    let a := shift_left dummy_item 0 (GetSize this - 1) (array this) in
    let this := IncreaseSize (-1) (set_array a this) in
    (this, CopyLastFrom first_item recipient).

Definition MoveLastToFrontOf (this recipient : t) : t * t :=
  if GetSize this =? 0 then (this, recipient)
  else
    let last_index := GetSize this - 1 in
    let last_item := at_ this last_index in
    let this := IncreaseSize (-1) this in
    (this, CopyFirstFrom last_item recipient).

(** The entries a page holds: the first [size] slots of the array. *)
Definition entries (n : t) : list MappingType :=
  take (Z.to_nat (GetSize n)) (array n).

(** [this->MoveHalfTo(recipient)]: the pair is (this, recipient).  The
    moved entries are written from slot 0 of the recipient, whose size is
    then set to their number. *)
Definition MoveHalfTo (this recipient : t) : t * t :=
  let total_size := GetSize this in
  let move_size := Z.quot total_size 2 in
  let start_index := total_size - move_size in
  (* for (int i = 0; i < move_size; i++)
       recipient->array[i] = array[start_index + i]; *)
  let a := for_up 0 move_size
             (fun i a => array_set a i (at_ this (start_index + i)))
             (array recipient) in
  let recipient := SetSize move_size (set_array a recipient) in
  (SetSize (total_size - move_size) this, recipient).

(** [CopyNFrom(items, size)]: [items] is the array the pointer points
    into, which is not the array of this page. *)
Definition CopyNFrom (items : list MappingType) (size : Z) (n : t) : t :=
  let current_size := GetSize n in
  (* for (int i = 0; i < size; i++) array[current_size + i] = items[i]; *)
  let a := for_up 0 size
             (fun i a =>
                array_set a (current_size + i) (array_get dummy_item items i))
             (array n) in
  SetSize (current_size + size) (set_array a n).

(** [Lookup(key, value, comparator)].  [value_is_null] tells whether the
    out pointer is [nullptr]; the result is the returned flag together
    with the value stored through the pointer, if one is stored. *)
Definition Lookup (n : t) (key : K) (value_is_null : bool)
  : bool * option V :=
  if value_is_null then (false, None)
  else
    let index := KeyIndex n key in
    if (index <? GetSize n) && (comparator (at_ n index).1 key =? 0)
    then (true, Some (at_ n index).2)
    else
      (* for (int i = 0; i < GetSize(); i++)
           if (comparator(array[i].first, key) == 0) { ...; return true; } *)
      match first_index 0 (GetSize n)
              (fun i => comparator (at_ n i).1 key =? 0) with
      | Some i => (true, Some (at_ n i).2)
      | None => (false, None)
      end.

(** [RemoveAndDeleteRecord] returns the page size after the call. *)
Definition RemoveAndDeleteRecord (key : K) (n : t) : Z * t :=
  let index := KeyIndex n key in
  if (index >=? GetSize n) || negb (comparator (at_ n index).1 key =? 0)
  then (GetSize n, n)
  else
    (* for (int i = index; i < GetSize() - 1; i++) array[i] = array[i + 1]; *)
    let a := shift_left dummy_item index (GetSize n - 1) (array n) in
    let n := IncreaseSize (-1) (set_array a n) in
    (GetSize n, n).

(** [this->MoveAllTo(recipient)]: the pair is (this, recipient). *)
Definition MoveAllTo (this recipient : t) : t * t :=
  let recipient := CopyNFrom (array this) (GetSize this) recipient in
  let recipient := SetNextPageId (GetNextPageId this) recipient in
  (SetSize 0 this, recipient).

End WithKey.
End BPlusTreeLeafPage.

(** ** Vocabulary of the statements *)

(** The laws of a three-way comparator: negative results are transitive,
    a positive result flips to a negative one, and keys that compare equal
    are interchangeable on the right of a negative result. *)
Record ComparatorLaws {K : Type} (comparator : K -> K -> Z) : Prop := {
  comparator_trans :
    forall a b c, comparator a b < 0 -> comparator b c < 0 ->
                  comparator a c < 0;
  comparator_flip :
    forall a b, 0 < comparator a b -> comparator b a < 0;
  comparator_equal_r :
    forall a b c, comparator a b < 0 -> comparator b c = 0 ->
                  comparator a c < 0
}.

(** The comparator of integer keys, as [GenericComparator] orders keys
    that hold one integer column. *)
Definition int_comparator (a b : Z) : Z :=
  if a <? b then -1 else if a =? b then 0 else 1.

(** [n] calls of [Victim] in a row, with the frames they yield. *)
Fixpoint victims (n : nat) (r : LRUReplacer.t) : list (option frame_id_t) :=
  match n with
  | O => []
  | S n' => let '(v, r') := LRUReplacer.Victim r in v :: victims n' r'
  end.

(** [Unpin] called on each frame of a list, in order. *)
Definition unpin_all (fs : list frame_id_t) (r : LRUReplacer.t)
  : LRUReplacer.t :=
  foldl (fun r f => LRUReplacer.Unpin f r) r fs.

(** The state a call leaves behind; [None] when the call has no result. *)
Definition state_after {A S : Type} (o : outcome (A * S)) : option S :=
  match o with
  | Returned (_, s) => Some s
  | _ => None
  end.

(** The pin count and the dirty flag of a frame. *)
Definition pin_count_at (s : BufferPoolManager.t) (f : frame_id_t)
  : option Z :=
  BufferPoolManager.pin_count_ <$> BufferPoolManager.pages_ s !! Z.to_nat f.

Definition is_dirty_at (s : BufferPoolManager.t) (f : frame_id_t)
  : option bool :=
  BufferPoolManager.is_dirty_ <$> BufferPoolManager.pages_ s !! Z.to_nat f.

(** A pool of [pool_size] frames on an empty disk, after the given page
    has been fetched [k] times. *)
Fixpoint fetched (k : nat) (page_id : page_id_t) (s : BufferPoolManager.t)
  : option BufferPoolManager.t :=
  match k with
  | O => Some s
  | S k' =>
      match fetched k' page_id s with
      | Some s' => state_after (BufferPoolManager.FetchPageImpl page_id s')
      | None => None
      end
  end.

Definition fresh_pool (pool_size : nat) : BufferPoolManager.t :=
  BufferPoolManager.create pool_size DiskManager.create.

(** *** Well-formed pools *)

(** The bookkeeping of a pool is consistent: every page-table entry
    points at a frame that holds that page; the free frames exist, are
    pairwise distinct and hold no resident page; the frames the replacer
    tracks are pairwise distinct and hold resident pages; and resident
    pages and free frames together count as many as the pool has
    frames. *)
Record pool_wf (s : BufferPoolManager.t) : Prop := {
  wf_table :
    forall page_id f,
      BufferPoolManager.page_table_ s !! page_id = Some f ->
      exists p, BufferPoolManager.page_at s f = Returned p /\
                BufferPoolManager.page_id_ p = page_id;
  wf_free :
    forall f, f ∈ BufferPoolManager.free_list_ s ->
      0 <= f < Z.of_nat (length (BufferPoolManager.pages_ s)) /\
      forall page_id, BufferPoolManager.page_table_ s !! page_id <> Some f;
  wf_free_distinct : NoDup (BufferPoolManager.free_list_ s);
  wf_replacer :
    forall f,
      f ∈ LRUReplacer.unpinned_frames (BufferPoolManager.replacer_ s) ->
      exists page_id, BufferPoolManager.page_table_ s !! page_id = Some f;
  wf_replacer_distinct :
    NoDup (LRUReplacer.unpinned_frames (BufferPoolManager.replacer_ s));
  wf_count :
    (size (BufferPoolManager.page_table_ s)
     + length (BufferPoolManager.free_list_ s)
     = length (BufferPoolManager.pages_ s))%nat
}.

(** The disk manager after the write-back of a victim page, which
    happens only when the page is dirty. *)
Definition written_back (p : BufferPoolManager.Page) (d : DiskManager.t)
  : DiskManager.t :=
  if BufferPoolManager.is_dirty_ p
  then DiskManager.WritePage (BufferPoolManager.page_id_ p)
         (BufferPoolManager.data_ p) d
  else d.

(** A pool of one frame whose only frame holds page 5, pinned once. *)
Definition exhausted_pool : BufferPoolManager.t :=
  default (fresh_pool 1) (fetched 1 5 (fresh_pool 1)).

(** The same pool after page 5 has been unpinned dirty: its frame is
    tracked by the replacer. *)
Definition evictable_pool : BufferPoolManager.t :=
  default exhausted_pool
    (state_after (BufferPoolManager.UnpinPageImpl 5 true exhausted_pool)).

(** *** Tree pages *)

Section LeafVocabulary.
Context {K V : Type} (comparator : K -> K -> Z)
        (default_key : K) (default_value : V).

(** The key in slot [i] of a leaf page. *)
Definition leaf_key (n : BPlusTreeLeafPage.t) (i : Z) : K :=
  (BPlusTreeLeafPage.at_ default_key default_value n i).1.

(** The entries of a leaf are sorted strictly ascending under the
    comparator. *)
Definition leaf_ascending (n : @BPlusTreeLeafPage.t K V) : Prop :=
  forall i j, 0 <= i -> i < j -> j < BPlusTreeLeafPage.GetSize n ->
    comparator (leaf_key n i) (leaf_key n j) < 0.

(** Some entry of the leaf has a key that compares equal to [key]. *)
Definition leaf_has_key (n : @BPlusTreeLeafPage.t K V) (key : K) : Prop :=
  exists i, 0 <= i < BPlusTreeLeafPage.GetSize n /\
            comparator (leaf_key n i) key = 0.

(** The page layout: the entries lie in the buffer, and the buffer has
    room for [max_size] entries. *)
Definition leaf_fits (n : @BPlusTreeLeafPage.t K V) : Prop :=
  0 <= BPlusTreeLeafPage.GetSize n
       <= Z.of_nat (length (BPlusTreeLeafPage.array n)) /\
  BPlusTreeLeafPage.GetMaxSize n
       <= Z.of_nat (length (BPlusTreeLeafPage.array n)).

End LeafVocabulary.

Section InternalVocabulary.
Context {K : Type} (comparator : K -> K -> Z) (default_key : K).

(** The key in slot [i] of an internal page. *)
Definition internal_key (n : BPlusTreeInternalPage.t) (i : Z) : K :=
  (BPlusTreeInternalPage.at_ default_key n i).1.

(** The keys in slots [1, size) are strictly ascending under the
    comparator; the key of slot 0 is unused. *)
Definition internal_ascending (n : @BPlusTreeInternalPage.t K) : Prop :=
  forall i j, 1 <= i -> i < j -> j < BPlusTreeInternalPage.GetSize n ->
    comparator (internal_key n i) (internal_key n j) < 0.

(** The page layout: slot 0 holds the leftmost child, and the entries lie
    in the buffer. *)
Definition internal_fits (n : @BPlusTreeInternalPage.t K) : Prop :=
  1 <= BPlusTreeInternalPage.GetSize n
       <= Z.of_nat (length (BPlusTreeInternalPage.array n)).

End InternalVocabulary.

(** *** Sample pages with integer keys *)

(** A leaf with room for four entries that holds three. *)
Definition sample_leaf : @BPlusTreeLeafPage.t Z Z :=
  BPlusTreeLeafPage.mk
    (BPlusTreePage.mk LEAF_PAGE 3 4 INVALID_PAGE_ID 7) INVALID_PAGE_ID
    [(1, 10); (5, 50); (9, 90); (0, 0)].

(** A leaf that is full. *)
Definition full_leaf : @BPlusTreeLeafPage.t Z Z :=
  BPlusTreeLeafPage.mk
    (BPlusTreePage.mk LEAF_PAGE 2 2 INVALID_PAGE_ID 8) INVALID_PAGE_ID
    [(20, 200); (30, 300)].

(** A leaf with room for four entries that holds one. *)
Definition roomy_leaf : @BPlusTreeLeafPage.t Z Z :=
  BPlusTreeLeafPage.mk
    (BPlusTreePage.mk LEAF_PAGE 1 4 INVALID_PAGE_ID 9) 12
    [(100, 1000); (0, 0); (0, 0); (0, 0)].

(** An internal page with four children; the key of slot 0 is unused. *)
Definition sample_internal : @BPlusTreeInternalPage.t Z :=
  BPlusTreeInternalPage.mk
    (BPlusTreePage.mk INTERNAL_PAGE 4 4 INVALID_PAGE_ID 3)
    [(0, 100); (5, 101); (9, 102); (20, 103)].

(** An internal page with three children and room for two more. *)
Definition roomy_internal : @BPlusTreeInternalPage.t Z :=
  BPlusTreeInternalPage.mk
    (BPlusTreePage.mk INTERNAL_PAGE 3 5 INVALID_PAGE_ID 4)
    [(0, 100); (5, 101); (9, 102); (20, 103); (0, 0)].

(** ** The replacer *)

Section ReplacerFacts.
Import LRUReplacer.

Lemma already_unpinned_spec (f : frame_id_t) (l : list frame_id_t) :
  already_unpinned f l = true <-> f ∈ l.
Proof.
  induction l as [|x l IH]; simpl.
  - split; [discriminate | intros H; inversion H].
  - destruct (Z.eqb_spec x f) as [->|Hne].
    + split; [intros _; left | reflexivity].
    + rewrite IH. split; [intros H; now right |].
      intros H. inversion H; subst; [congruence | assumption].
Qed.

Lemma Unpin_present (r : t) (f : frame_id_t) :
  f ∈ unpinned_frames r -> Unpin f r = r.
Proof.
  intros Hin. unfold Unpin.
  destruct (f <? 0); [reflexivity |].
  apply already_unpinned_spec in Hin. now rewrite Hin.
Qed.

Lemma Unpin_absent (r : t) (f : frame_id_t) :
  0 <= f -> f ∉ unpinned_frames r ->
  Unpin f r = mk (unpinned_frames r ++ [f]).
Proof.
  intros Hf Hnin. unfold Unpin.
  destruct (Z.ltb_spec f 0); [lia |].
  destruct (already_unpinned f (unpinned_frames r)) eqn:E; [| reflexivity].
  apply already_unpinned_spec in E. contradiction.
Qed.

Local Ltac absent_frame :=
  rewrite ?elem_of_cons, ?elem_of_nil; intuition congruence.

(** C5.  [Unpin] of a frame that the replacer already tracks leaves the
    replacer exactly as it was.  Hence, starting from an empty replacer,
    unpinning distinct frames A, B, C in that order, with one more
    [Unpin] of A after the first, the second or the third of them, makes
    four calls of [Victim] yield A, B, C and then nothing. *)
Theorem Unpin_idempotent_keeps_lru_order
    (r : t) (f A B C : frame_id_t) (num_pages : Z) :
  f ∈ unpinned_frames r ->
  0 <= A -> 0 <= B -> 0 <= C -> A <> B -> A <> C -> B <> C ->
  Unpin f r = r /\
  forall fs, fs ∈ [[A; A; B; C]; [A; B; A; C]; [A; B; C; A]] ->
    victims 4 (unpin_all fs (create num_pages))
    = [Some A; Some B; Some C; None].
Proof.
  intros Hin HA HB HC HAB HAC HBC. split; [now apply Unpin_present |].
  assert (E1 : Unpin A (create num_pages) = mk [A])
    by (rewrite Unpin_absent; [reflexivity | lia | simpl; absent_frame]).
  assert (E2 : Unpin B (mk [A]) = mk [A; B])
    by (rewrite Unpin_absent; [reflexivity | lia | simpl; absent_frame]).
  assert (E3 : Unpin C (mk [A; B]) = mk [A; B; C])
    by (rewrite Unpin_absent; [reflexivity | lia | simpl; absent_frame]).
  assert (R1 : Unpin A (mk [A]) = mk [A])
    by (apply Unpin_present; simpl; rewrite !elem_of_cons; auto).
  assert (R2 : Unpin A (mk [A; B]) = mk [A; B])
    by (apply Unpin_present; simpl; rewrite !elem_of_cons; auto).
  assert (R3 : Unpin A (mk [A; B; C]) = mk [A; B; C])
    by (apply Unpin_present; simpl; rewrite !elem_of_cons; auto).
  intros fs Hfs.
  repeat (apply elem_of_cons in Hfs; destruct Hfs as [->|Hfs]);
    [ | | | inversion Hfs ];
    unfold unpin_all; simpl foldl;
    rewrite ?E1, ?R1, ?E2, ?R2, ?E3, ?R3; reflexivity.
Qed.

Lemma Unpin_idempotent_keeps_lru_order_witness :
  Unpin 1 (mk [3; 1; 2]) = mk [3; 1; 2] /\
  forall fs, fs ∈ [[0; 0; 1; 2]; [0; 1; 0; 2]; [0; 1; 2; 0]] ->
    victims 4 (unpin_all fs (create 3)) = [Some 0; Some 1; Some 2; None].
Proof.
  apply (Unpin_idempotent_keeps_lru_order (mk [3; 1; 2]) 1 0 1 2 3);
    simpl; try lia.
  apply list_elem_of_In. simpl. tauto.
Defined.

End ReplacerFacts.

(** ** The buffer pool manager *)

Section BufferPoolFacts.
Import BufferPoolManager.

Lemma page_at_set_page (s : t) (f : frame_id_t) (p q : Page) :
  page_at s f = Returned p -> page_at (set_page f q s) f = Returned q.
Proof.
  unfold page_at, set_page. simpl.
  destruct (f <? 0); [discriminate |].
  destruct (pages_ s !! Z.to_nat f) eqn:E; [| discriminate].
  intros _. apply lookup_lt_Some in E.
  now rewrite list_lookup_insert_eq.
Qed.

(** What [UnpinPageImpl] does with a resident page whose pin count is
    positive: it returns true, hands the frame to the replacer whatever
    the pin count is, ors the dirty flag, and leaves the pin count as it
    found it. *)
Lemma UnpinPageImpl_pinned
    (s : t) (page_id : page_id_t) (is_dirty : bool) (f : frame_id_t)
    (p : Page) :
  page_table_ s !! page_id = Some f ->
  page_at s f = Returned p ->
  0 < pin_count_ p ->
  exists s',
    UnpinPageImpl page_id is_dirty s = Returned (true, s') /\
    replacer_ s' = LRUReplacer.Unpin f (replacer_ s) /\
    page_at s' f
    = Returned (mkPage (data_ p) (page_id_ p) (pin_count_ p)
                       (is_dirty_ p || is_dirty)) /\
    page_table_ s' = page_table_ s /\
    free_list_ s' = free_list_ s /\
    disk_manager_ s' = disk_manager_ s.
Proof.
  intros Hpt Hp Hpin. unfold UnpinPageImpl. rewrite Hpt, Hp. simpl.
  destruct (Z.leb_spec (pin_count_ p) 0); [lia |].
  eexists. split; [reflexivity |].
  destruct is_dirty; simpl.
  - repeat split; try reflexivity.
    rewrite orb_true_r.
    apply page_at_set_page with (p := p).
    unfold page_at, set_replacer in *. simpl. exact Hp.
  - repeat split; try reflexivity.
    rewrite orb_false_r. destruct p. exact Hp.
Qed.

(** C1.  Page 5 is fetched twice into a fresh pool, so it is resident in
    frame 0 with pin count 2.  [UnpinPageImpl] returns true, but the pin
    count is still 2 afterwards and frame 0 has been handed to the
    replacer although its pin count is not 0. *)
Theorem UnpinPageImpl_keeps_pin_count :
  exists s s',
    fetched 2 5 (fresh_pool 2) = Some s /\
    page_table_ s !! 5 = Some 0 /\
    pin_count_at s 0 = Some 2 /\
    UnpinPageImpl 5 false s = Returned (true, s') /\
    pin_count_at s' 0 = Some 2 /\
    LRUReplacer.unpinned_frames (replacer_ s') = [0].
Proof.
  eexists. eexists.
  split; [vm_compute; reflexivity |].
  split; [vm_compute; reflexivity |].
  split; [vm_compute; reflexivity |].
  split; [vm_compute; reflexivity |].
  split; vm_compute; reflexivity.
Qed.

(** C2.  After two fetches of page 5 the invariant "a resident frame is in
    the replacer exactly when its pin count is 0" holds.  One
    [UnpinPageImpl] later it does not: frame 0 is in the replacer with pin
    count 2. *)
Theorem UnpinPageImpl_breaks_replacer_invariant :
  exists s s',
    fetched 2 5 (fresh_pool 1) = Some s /\
    replacer_invariant s /\
    UnpinPageImpl 5 false s = Returned (true, s') /\
    ~ replacer_invariant s'.
Proof.
  eexists. eexists.
  split; [vm_compute; reflexivity |].
  split; [| split; [vm_compute; reflexivity |]].
  - intros page_id f p Hpt Hp.
    match type of Hpt with
    | page_table_ ?s !! _ = _ =>
        assert (Et : page_table_ s = <[5 := 0]> ∅)
          by (vm_compute; reflexivity)
    end.
    rewrite Et in Hpt. clear Et.
    apply lookup_insert_Some in Hpt as [[_ <-] | [_ Hpt]];
      [| rewrite lookup_empty in Hpt; discriminate].
    vm_compute in Hp. injection Hp as <-.
    unfold in_replacer. simpl. split.
    + intros H. inversion H.
    + discriminate.
  - intros Hinv.
    match type of Hinv with
    | replacer_invariant ?s =>
        specialize (Hinv 5 0
                      (mkPage (replicate PAGE_SIZE 0) 5 2 false));
        assert (Hpt : page_table_ s !! 5 = Some 0)
          by (vm_compute; reflexivity);
        assert (Hp : page_at s 0
                     = Returned (mkPage (replicate PAGE_SIZE 0) 5 2 false))
          by (vm_compute; reflexivity)
    end.
    destruct (Hinv Hpt Hp) as [Hin _].
    assert (H : 2 = 0); [| discriminate H].
    apply Hin. unfold in_replacer. simpl. left.
Qed.

(** C3.  Page 5 is fetched and unpinned dirty, so it is resident in frame
    0 with the dirty flag set.  [FlushPageImpl] returns false and leaves
    the whole state as it was: the disk manager receives no call and the
    dirty flag stays set. *)
Theorem FlushPageImpl_resident_returns_false :
  exists s s',
    fetched 1 5 (fresh_pool 1) = Some s /\
    UnpinPageImpl 5 true s = Returned (true, s') /\
    page_table_ s' !! 5 = Some 0 /\
    is_dirty_at s' 0 = Some true /\
    FlushPageImpl 5 s' = Returned (false, s') /\
    DiskManager.calls (disk_manager_ s') = [DiskManager.ReadPageCall 5].
Proof.
  eexists. eexists.
  split; [vm_compute; reflexivity |].
  split; [vm_compute; reflexivity |].
  split; [vm_compute; reflexivity |].
  split; [vm_compute; reflexivity |].
  split; [reflexivity | vm_compute; reflexivity].
Qed.

(** C4.  Page 7 is not resident in a fresh pool.  [DeletePageImpl] returns
    false and leaves the whole state as it was: the disk manager is not
    asked to deallocate the page. *)
Theorem DeletePageImpl_not_resident_returns_false :
  page_table_ (fresh_pool 1) !! 7 = None /\
  DeletePageImpl 7 (fresh_pool 1) = Returned (false, fresh_pool 1) /\
  DiskManager.calls (disk_manager_ (fresh_pool 1)) = [].
Proof. repeat split. Qed.

(** [FlushPageImpl] returns false and changes nothing, for every page. *)
Lemma FlushPageImpl_unchanged (s : t) (page_id : page_id_t) :
  FlushPageImpl page_id s = Returned (false, s).
Proof. reflexivity. Qed.

(** [UnpinPageImpl] has no defined result for a page that is not in the
    page table. *)
Lemma UnpinPageImpl_not_resident
    (s : t) (page_id : page_id_t) (is_dirty : bool) :
  page_table_ s !! page_id = None ->
  UnpinPageImpl page_id is_dirty s = Undefined.
Proof. intros H. unfold UnpinPageImpl. now rewrite H. Qed.

(** C8.  Page 7 is not resident in a fresh pool.  [UnpinPageImpl]
    dereferences the iterator that [find] returned, which is [end()]: the
    call has no defined result, and so does not return false. *)
Theorem UnpinPageImpl_not_resident_is_undefined :
  page_table_ (fresh_pool 1) !! 7 = None /\
  UnpinPageImpl 7 false (fresh_pool 1) = Undefined /\
  UnpinPageImpl 7 false (fresh_pool 1) <> Returned (false, fresh_pool 1).
Proof. repeat split. discriminate. Qed.

End BufferPoolFacts.

(** ** Arrays and the shifting loops *)

Section ArrayFacts.
Context {E : Type} (dflt : E).

Lemma length_array_set (a : list E) (i : Z) (x : E) :
  length (array_set a i x) = length a.
Proof. unfold array_set. destruct (i <? 0); now rewrite ?length_insert. Qed.

Lemma array_get_set_eq (a : list E) (i : Z) (x : E) :
  0 <= i < Z.of_nat (length a) ->
  array_get dflt (array_set a i x) i = x.
Proof.
  intros Hi. unfold array_get, array_set.
  destruct (Z.ltb_spec i 0); [lia |].
  rewrite nth_lookup, list_lookup_insert_eq by lia. reflexivity.
Qed.

Lemma array_get_set_ne (a : list E) (i j : Z) (x : E) :
  i <> j -> array_get dflt (array_set a i x) j = array_get dflt a j.
Proof.
  intros Hne. unfold array_get, array_set.
  destruct (Z.ltb_spec j 0); [reflexivity |].
  destruct (Z.ltb_spec i 0); [reflexivity |].
  rewrite !nth_lookup, list_lookup_insert_ne by lia. reflexivity.
Qed.

Lemma array_get_lookup (a : list E) (i : nat) :
  (i < length a)%nat -> a !! i = Some (array_get dflt a (Z.of_nat i)).
Proof.
  intros Hi. unfold array_get.
  destruct (Z.ltb_spec (Z.of_nat i) 0); [lia |].
  rewrite Nat2Z.id, nth_lookup.
  destruct (lookup_lt_is_Some_2 a i Hi) as [x ->]. reflexivity.
Qed.

(** Two arrays with the same slots are equal. *)
Lemma array_ext (a b : list E) :
  length a = length b ->
  (forall i, 0 <= i < Z.of_nat (length a) ->
             array_get dflt a i = array_get dflt b i) ->
  a = b.
Proof.
  intros Hlen Hget. apply list_eq_same_length with (n := length a); auto.
  intros i x y Hi Hx Hy.
  rewrite (array_get_lookup a i) in Hx by lia.
  rewrite (array_get_lookup b i) in Hy by lia.
  rewrite Hget in Hx by lia. congruence.
Qed.

Lemma for_down_step {S : Type} (hi lo : Z) (body : Z -> S -> S) (s : S) :
  lo < hi ->
  for_down hi lo body s = body (lo + 1) (for_down hi (lo + 1) body s).
Proof.
  intros H. unfold for_down. rewrite seqZ_cons by lia. simpl.
  do 3 f_equal; lia.
Qed.

Lemma for_down_done {S : Type} (hi lo : Z) (body : Z -> S -> S) (s : S) :
  hi <= lo -> for_down hi lo body s = s.
Proof. intros H. unfold for_down. now rewrite seqZ_nil by lia. Qed.

Lemma for_up_step {S : Type} (lo hi : Z) (body : Z -> S -> S) (s : S) :
  lo < hi -> for_up lo hi body s = for_up (lo + 1) hi body (body lo s).
Proof.
  intros H. unfold for_up. rewrite seqZ_cons by lia. simpl.
  do 2 f_equal; lia.
Qed.

Lemma for_up_done {S : Type} (lo hi : Z) (body : Z -> S -> S) (s : S) :
  hi <= lo -> for_up lo hi body s = s.
Proof. intros H. unfold for_up. now rewrite seqZ_nil by lia. Qed.

Lemma shift_right_spec (n : nat) :
  forall (hi lo : Z) (a : list E),
    Z.to_nat (hi - lo) = n -> 0 <= lo -> hi < Z.of_nat (length a) ->
    length (shift_right dflt hi lo a) = length a /\
    forall j, array_get dflt (shift_right dflt hi lo a) j
              = if (lo <? j) && (j <=? hi)
                then array_get dflt a (j - 1) else array_get dflt a j.
Proof.
  induction n as [|n IH]; intros hi lo a Hn Hlo Hhi; unfold shift_right.
  - rewrite for_down_done by lia. split; [reflexivity |].
    intros j. destruct (Z.ltb_spec lo j), (Z.leb_spec j hi);
      simpl; try reflexivity; lia.
  - rewrite for_down_step by lia.
    destruct (IH hi (lo + 1) a) as [Hlen Hget]; try lia.
    fold (shift_right dflt hi (lo + 1) a).
    split; [now rewrite length_array_set |].
    intros j. destruct (Z.eq_dec j (lo + 1)) as [->|Hj].
    + rewrite array_get_set_eq by lia. rewrite Hget.
      replace (lo + 1 - 1) with lo by lia.
      destruct (Z.ltb_spec (lo + 1) lo), (Z.ltb_spec lo (lo + 1)),
        (Z.leb_spec (lo + 1) hi); simpl; try reflexivity; lia.
    + rewrite array_get_set_ne by lia. rewrite Hget.
      destruct (Z.ltb_spec (lo + 1) j), (Z.ltb_spec lo j),
        (Z.leb_spec j hi); simpl; try reflexivity; lia.
Qed.

Lemma shift_left_spec (n : nat) :
  forall (lo hi : Z) (a : list E),
    Z.to_nat (hi - lo) = n -> 0 <= lo -> hi <= Z.of_nat (length a) ->
    length (shift_left dflt lo hi a) = length a /\
    forall j, array_get dflt (shift_left dflt lo hi a) j
              = if (lo <=? j) && (j <? hi)
                then array_get dflt a (j + 1) else array_get dflt a j.
Proof.
  induction n as [|n IH]; intros lo hi a Hn Hlo Hhi; unfold shift_left.
  - rewrite for_up_done by lia. split; [reflexivity |].
    intros j. destruct (Z.leb_spec lo j), (Z.ltb_spec j hi);
      simpl; try reflexivity; lia.
  - rewrite for_up_step by lia.
    set (a1 := array_set a lo (array_get dflt a (lo + 1))).
    fold (shift_left dflt (lo + 1) hi a1).
    destruct (IH (lo + 1) hi a1) as [Hlen Hget]; try lia.
    { unfold a1. rewrite length_array_set. lia. }
    split; [rewrite Hlen; apply length_array_set |].
    intros j. rewrite Hget. unfold a1.
    destruct (Z.eq_dec j lo) as [->|Hj].
    + rewrite array_get_set_eq by lia.
      destruct (Z.leb_spec (lo + 1) lo), (Z.leb_spec lo lo),
        (Z.ltb_spec lo hi); simpl; try reflexivity; lia.
    + destruct (Z.leb_spec (lo + 1) j), (Z.leb_spec lo j),
        (Z.ltb_spec j hi); simpl;
        try (rewrite array_get_set_ne by lia; reflexivity); lia.
Qed.

(** The first [n] slots of an array, read off slot by slot. *)
Lemma take_slots (a l : list E) (n : nat) :
  length l = n -> (n <= length a)%nat ->
  (forall i, (i < n)%nat -> l !! i = Some (array_get dflt a (Z.of_nat i))) ->
  take n a = l.
Proof.
  intros Hl Hn Hget. apply list_eq. intros i.
  destruct (lt_dec i n) as [Hi|Hi].
  - rewrite lookup_take_lt, Hget by lia. apply array_get_lookup. lia.
  - rewrite lookup_take_ge by lia. symmetry. apply lookup_ge_None. lia.
Qed.

(** An array whose slots are those of [a] with [x] put in at [index] and
    the slots [index, size) moved one place to the right. *)
Lemma take_inserted (a a' : list E) (size index : Z) (x : E) :
  0 <= index <= size -> size < Z.of_nat (length a) ->
  length a' = length a ->
  (forall j, array_get dflt a' j
             = if j =? index then x
               else if (index <? j) && (j <=? size)
                    then array_get dflt a (j - 1) else array_get dflt a j) ->
  take (Z.to_nat (size + 1)) a'
  = take (Z.to_nat index) (take (Z.to_nat size) a)
    ++ x :: drop (Z.to_nat index) (take (Z.to_nat size) a).
Proof.
  intros Hindex Hsize Hlen Hget.
  assert (Hl1 : length (take (Z.to_nat index) (take (Z.to_nat size) a))
                = Z.to_nat index)
    by (rewrite !length_take; lia).
  apply take_slots.
  - rewrite length_app, Hl1. simpl. rewrite length_drop, length_take. lia.
  - lia.
  - intros i Hi. rewrite Hget.
    destruct (Z.eqb_spec (Z.of_nat i) index) as [He|Hne].
    + rewrite lookup_app_r by lia. rewrite Hl1.
      replace (i - Z.to_nat index)%nat with 0%nat by lia. reflexivity.
    + destruct (Z.ltb_spec index (Z.of_nat i)) as [Hlt|Hge]; simpl.
      * destruct (Z.leb_spec (Z.of_nat i) size); [| lia].
        rewrite lookup_app_r by lia. rewrite Hl1.
        replace (i - Z.to_nat index)%nat
          with (S (i - Z.to_nat index - 1)) by lia.
        simpl. rewrite lookup_drop, lookup_take_lt by lia.
        replace (Z.of_nat i - 1)
          with (Z.of_nat (Z.to_nat index + (i - Z.to_nat index - 1)))
          by lia.
        apply array_get_lookup. lia.
      * rewrite lookup_app_l by lia.
        rewrite !lookup_take_lt by lia. apply array_get_lookup. lia.
Qed.

(** An array whose slots [0, size - 1) are the slots [1, size) of [a]. *)
Lemma take_shifted_left (a a' : list E) (size : Z) :
  0 < size <= Z.of_nat (length a) ->
  length a' = length a ->
  (forall j, 0 <= j < size - 1 ->
             array_get dflt a' j = array_get dflt a (j + 1)) ->
  take (Z.to_nat (size - 1)) a' = drop 1 (take (Z.to_nat size) a).
Proof.
  intros Hsize Hlen Hget. apply take_slots.
  - rewrite length_drop, length_take. lia.
  - lia.
  - intros i Hi. rewrite Hget by lia.
    rewrite lookup_drop, lookup_take_lt by lia.
    replace (Z.of_nat i + 1) with (Z.of_nat (1 + i)) by lia.
    apply array_get_lookup. lia.
Qed.

End ArrayFacts.

(** ** Leaf pages *)

Section LeafFacts.
Context {K V : Type} (comparator : K -> K -> Z)
        (default_key : K) (default_value : V).
Import BPlusTreeLeafPage.

Local Abbreviation key_of := (leaf_key default_key default_value).
Local Abbreviation ascending := (leaf_ascending comparator default_key default_value).
Local Abbreviation loop := (KeyIndex_loop comparator default_key default_value).
Local Abbreviation item_at := (at_ default_key default_value).
Local Abbreviation dummy := (dummy_item default_key default_value).

Lemma KeyIndex_loop_unfold (n : t) (key : K) (left_ right_ : Z) :
  loop n key left_ right_
  = if decide (left_ < right_)
    then if comparator (key_of n (left_ + Z.quot (right_ - left_) 2)) key <? 0
         then loop n key (left_ + Z.quot (right_ - left_) 2 + 1) right_
         else loop n key left_ (left_ + Z.quot (right_ - left_) 2)
    else left_.
Proof.
  rewrite KeyIndex_loop_equation_1.
  destruct (decide (left_ < right_)); reflexivity.
Qed.

(** The loop invariant of [KeyIndex]: keys left of [left_] are smaller
    than [key], keys from [right_] on are not. *)
Lemma KeyIndex_loop_spec (n : t) (key : K) :
  ComparatorLaws comparator -> ascending n ->
  forall (m : nat) (left_ right_ : Z),
    Z.to_nat (right_ - left_) = m ->
    0 <= left_ <= right_ -> right_ <= GetSize n ->
    (forall i, 0 <= i < left_ -> comparator (key_of n i) key < 0) ->
    (forall i, right_ <= i < GetSize n ->
               0 <= comparator (key_of n i) key) ->
    let r := loop n key left_ right_ in
    left_ <= r <= right_ /\
    (forall i, 0 <= i < r -> comparator (key_of n i) key < 0) /\
    (forall i, r <= i < GetSize n -> 0 <= comparator (key_of n i) key).
Proof.
  intros laws Hasc m.
  induction m as [m IH] using lt_wf_ind.
  intros left_ right_ Hm Hlr Hr Hlow Hhigh. simpl.
  rewrite KeyIndex_loop_unfold.
  destruct (decide (left_ < right_)) as [Hlt|Hge].
  - pose proof (Z.quot_div_nonneg (right_ - left_) 2 ltac:(lia) ltac:(lia))
      as Hq.
    set (mid := left_ + Z.quot (right_ - left_) 2) in *.
    assert (Hmid : left_ <= mid < right_).
    { unfold mid. rewrite Hq.
      assert ((right_ - left_) / 2 < right_ - left_)
        by (apply Z.div_lt; lia).
      assert (0 <= (right_ - left_) / 2) by (apply Z.div_pos; lia). lia. }
    destruct (Z.ltb_spec (comparator (key_of n mid) key) 0) as [Hc|Hc].
    + destruct (IH (Z.to_nat (right_ - (mid + 1))) ltac:(lia)
                  (mid + 1) right_ eq_refl ltac:(lia) Hr) as (H1 & H2 & H3).
      * intros i Hi. destruct (Z.eq_dec i mid) as [->|Hne]; [exact Hc |].
        apply (comparator_trans _ laws) with (b := key_of n mid);
          [apply Hasc; lia | exact Hc].
      * exact Hhigh.
      * repeat split; try assumption; lia.
    + destruct (IH (Z.to_nat (mid - left_)) ltac:(lia)
                  left_ mid eq_refl ltac:(lia) ltac:(lia) Hlow)
        as (H1 & H2 & H3).
      * intros i Hi. destruct (Z.eq_dec i mid) as [->|Hne]; [exact Hc |].
        destruct (Z.lt_ge_cases (comparator (key_of n i) key) 0)
          as [Hi0|Hi0]; [| exact Hi0].
        assert (comparator (key_of n mid) key < 0); [| lia].
        apply (comparator_trans _ laws) with (b := key_of n i);
          [apply Hasc; lia | exact Hi0].
      * repeat split; try assumption; lia.
  - repeat split; try lia.
    + intros i Hi. apply Hlow. lia.
    + intros i Hi. apply Hhigh. lia.
Qed.

(** [KeyIndex] returns the first index whose key is not smaller than
    [key]. *)
Lemma KeyIndex_spec (n : t) (key : K) :
  ComparatorLaws comparator -> ascending n -> 0 <= GetSize n ->
  let r := KeyIndex comparator default_key default_value n key in
  0 <= r <= GetSize n /\
  (forall i, 0 <= i < r -> comparator (key_of n i) key < 0) /\
  (forall i, r <= i < GetSize n -> 0 <= comparator (key_of n i) key).
Proof.
  intros laws Hasc Hsize. unfold KeyIndex.
  apply (KeyIndex_loop_spec n key laws Hasc _ 0 (GetSize n) eq_refl);
    try lia; intros i Hi; lia.
Qed.

(** On a sorted leaf the duplicate test of [Insert] fires exactly when the
    key is present. *)
Lemma Insert_duplicate_test (n : t) (key : K) :
  ComparatorLaws comparator -> ascending n -> 0 <= GetSize n ->
  let index := KeyIndex comparator default_key default_value n key in
  (index <? GetSize n) && (comparator (key_of n index) key =? 0) = true
  <-> leaf_has_key comparator default_key default_value n key.
Proof.
  intros laws Hasc Hsize index.
  destruct (KeyIndex_spec n key laws Hasc Hsize) as (Hr & Hlow & Hhigh).
  fold index in Hr, Hlow, Hhigh.
  rewrite andb_true_iff, Z.ltb_lt, Z.eqb_eq. split.
  - intros [Hlt Heq]. exists index. split; [lia | exact Heq].
  - intros (i & Hi & Heq).
    assert (Hle : index <= i).
    { destruct (Z.le_gt_cases index i) as [H|H]; [exact H |].
      specialize (Hlow i ltac:(lia)). lia. }
    destruct (Z.eq_dec index i) as [->|Hne]; [split; [lia | exact Heq] |].
    assert (comparator (key_of n index) key < 0).
    { apply (comparator_equal_r _ laws) with (b := key_of n i);
        [apply Hasc; lia | exact Heq]. }
    specialize (Hhigh index ltac:(lia)). lia.
Qed.

(** C7.  On a leaf whose entries are sorted strictly ascending, [Insert]
    leaves the page as it is and returns the old size when the key is
    already present or the page is full ([size >= max_size]).  Otherwise
    it returns the old size plus one, the page has one more entry, the new
    entries are the old ones with (key, value) put in at the position
    that has all smaller keys before it and all larger keys after it, and
    the entries are again strictly ascending. *)
Theorem Insert_into_sorted_leaf (n : t) (key : K) (value : V) :
  ComparatorLaws comparator ->
  leaf_fits n ->
  ascending n ->
  let result := Insert comparator default_key default_value key value n in
  (leaf_has_key comparator default_key default_value n key \/
   GetMaxSize n <= GetSize n ->
   result = (GetSize n, n)) /\
  (~ leaf_has_key comparator default_key default_value n key ->
   GetSize n < GetMaxSize n ->
   result.1 = GetSize n + 1 /\
   GetSize result.2 = GetSize n + 1 /\
   (exists index,
      0 <= index <= GetSize n /\
      (forall i, 0 <= i < index -> comparator (key_of n i) key < 0) /\
      (forall i, index <= i < GetSize n ->
                 comparator key (key_of n i) < 0) /\
      entries result.2
      = take (Z.to_nat index) (entries n)
        ++ (key, value) :: drop (Z.to_nat index) (entries n)) /\
   ascending result.2 /\
   next_page_id_ result.2 = next_page_id_ n /\
   header result.2 = BPlusTreePage.SetSize (GetSize n + 1) (header n)).
Proof.
  intros laws [Hsize Hmax] Hasc result.
  pose proof (Insert_duplicate_test n key laws Hasc ltac:(lia)) as Hdup.
  destruct (KeyIndex_spec n key laws Hasc ltac:(lia)) as (Hr & Hlow & Hhigh).
  simpl in Hdup, Hr, Hlow, Hhigh.
  unfold result, Insert.
  set (index := KeyIndex comparator default_key default_value n key) in *.
  fold (key_of n index).
  destruct ((index <? GetSize n) && (comparator (key_of n index) key =? 0))
    eqn:Etest.
  { split; [reflexivity |]. intros Hno. exfalso. apply Hno, Hdup.
    reflexivity. }
  assert (Hno : ~ leaf_has_key comparator default_key default_value n key).
  { intros H. apply Hdup in H. discriminate. }
  destruct (Z.geb_spec (GetSize n) (GetMaxSize n)) as [Hfull|Hroom].
  { split; [reflexivity | intros _ H; lia]. }
  split; [intros [H|H]; [contradiction | lia] |].
  intros _ _.
  assert (Hgt : forall i, index <= i < GetSize n ->
                          comparator key (key_of n i) < 0).
  { intros i Hi. apply (comparator_flip _ laws).
    specialize (Hhigh i Hi).
    destruct (Z.eq_dec (comparator (key_of n i) key) 0) as [E|E]; [| lia].
    exfalso. apply Hno. exists i. split; [lia | exact E]. }
  destruct (shift_right_spec dummy _ (GetSize n) index (array n) eq_refl)
    as [Hlen Hget]; try lia.
  set (a1 := shift_right dummy (GetSize n) index (array n)) in *.
  set (a2 := array_set a1 index (key, value)).
  assert (Hget2 : forall j,
            array_get dummy a2 j
            = if j =? index then (key, value)
              else if (index <? j) && (j <=? GetSize n)
                   then array_get dummy (array n) (j - 1)
                   else array_get dummy (array n) j).
  { intros j. unfold a2. destruct (Z.eqb_spec j index) as [->|Hne].
    - apply array_get_set_eq. lia.
    - rewrite array_get_set_ne by lia. apply Hget. }
  assert (Hsz : GetSize (IncreaseSize 1 (set_array a2 n)) = GetSize n + 1)
    by reflexivity.
  simpl. rewrite Hsz.
  split; [reflexivity |]. split; [reflexivity |].
  split; [| split; [| split; reflexivity]].
  - exists index. repeat split; try lia; try assumption.
    unfold entries. rewrite Hsz. simpl.
    apply (take_inserted dummy); try lia; try assumption.
    unfold a2. now rewrite length_array_set.
  - intros i j Hi Hij Hj. rewrite Hsz in Hj.
    unfold leaf_key, at_. simpl. rewrite !Hget2.
    fold (item_at n i) (item_at n j) (item_at n (i - 1)) (item_at n (j - 1)).
    fold (key_of n i) (key_of n j) (key_of n (i - 1)) (key_of n (j - 1)).
    destruct (Z.eqb_spec i index), (Z.eqb_spec j index),
      (Z.ltb_spec index i), (Z.ltb_spec index j),
      (Z.leb_spec i (GetSize n)), (Z.leb_spec j (GetSize n));
      simpl; try lia.
    + apply Hgt. lia.
    + apply Hlow. lia.
    + apply Hasc; lia.
    + apply Hasc; lia.
    + apply Hasc; lia.
Qed.

End LeafFacts.

(** ** Internal pages *)

Section InternalFacts.
Context {K : Type} (comparator : K -> K -> Z) (default_key : K).
Import BPlusTreeInternalPage.

Local Abbreviation key_of := (internal_key default_key).
Local Abbreviation ascending := (internal_ascending comparator default_key).
Local Abbreviation search := (lower_bound comparator default_key).

Lemma lower_bound_unfold (n : t) (key : K) (first len : Z) :
  search n key first len
  = if decide (0 < len)
    then if comparator (key_of n (first + len / 2)) key <? 0
         then search n key (first + len / 2 + 1) (len - len / 2 - 1)
         else search n key first (len / 2)
    else first.
Proof.
  rewrite lower_bound_equation_1.
  destruct (decide (0 < len)); reflexivity.
Qed.

(** The loop invariant of [std::lower_bound] on the range
    [first, first + len) of a page sorted from slot 1 on. *)
Lemma lower_bound_spec (n : t) (key : K) :
  ComparatorLaws comparator -> ascending n ->
  forall (m : nat) (first len : Z),
    Z.to_nat len = m ->
    1 <= first -> 0 <= len -> first + len <= GetSize n ->
    (forall i, 1 <= i < first -> comparator (key_of n i) key < 0) ->
    (forall i, first + len <= i < GetSize n ->
               0 <= comparator (key_of n i) key) ->
    let r := search n key first len in
    first <= r <= first + len /\
    (forall i, 1 <= i < r -> comparator (key_of n i) key < 0) /\
    (forall i, r <= i < GetSize n -> 0 <= comparator (key_of n i) key).
Proof.
  intros laws Hasc m.
  induction m as [m IH] using lt_wf_ind.
  intros first len Hm Hfirst Hlen Hlast Hlow Hhigh. simpl.
  rewrite lower_bound_unfold.
  destruct (decide (0 < len)) as [Hpos|Hzero].
  - assert (Hhalf : 0 <= len / 2 < len).
    { split; [apply Z.div_pos; lia | apply Z.div_lt; lia]. }
    set (half := len / 2) in *. set (middle := first + half).
    destruct (Z.ltb_spec (comparator (key_of n middle) key) 0) as [Hc|Hc].
    + destruct (IH (Z.to_nat (len - half - 1)) ltac:(lia)
                  (middle + 1) (len - half - 1) eq_refl
                  ltac:(lia) ltac:(lia) ltac:(lia))
        as (H1 & H2 & H3).
      * intros i Hi. destruct (Z.eq_dec i middle) as [->|Hne]; [exact Hc |].
        apply (comparator_trans _ laws) with (b := key_of n middle);
          [apply Hasc; lia | exact Hc].
      * intros i Hi. apply Hhigh. lia.
      * repeat split; try assumption; lia.
    + destruct (IH (Z.to_nat half) ltac:(lia) first half eq_refl
                  ltac:(lia) ltac:(lia) ltac:(lia) Hlow)
        as (H1 & H2 & H3).
      * intros i Hi. fold middle in Hi.
        destruct (Z.eq_dec i middle) as [->|Hne]; [exact Hc |].
        destruct (Z.lt_ge_cases (comparator (key_of n i) key) 0)
          as [Hi0|Hi0]; [| exact Hi0].
        assert (comparator (key_of n middle) key < 0); [| lia].
        apply (comparator_trans _ laws) with (b := key_of n i);
          [apply Hasc; lia | exact Hi0].
      * repeat split; try assumption; lia.
  - repeat split; try lia.
    + intros i Hi. apply Hlow. lia.
    + intros i Hi. apply Hhigh. lia.
Qed.

Lemma ValueAt_in_range (n : t) (i : Z) :
  0 <= i < GetSize n -> ValueAt default_key n i = Returned (at_ default_key n i).2.
Proof.
  intros Hi. unfold ValueAt, out_of_range.
  destruct (Z.ltb_spec i 0), (Z.geb_spec i (GetSize n));
    simpl; try reflexivity; lia.
Qed.

(** What [Lookup] returns in terms of the index [std::lower_bound]
    finds. *)
Lemma Lookup_by_lower_bound (n : t) (key : K) :
  ComparatorLaws comparator -> internal_fits n -> ascending n ->
  exists k,
    1 <= k <= GetSize n /\
    (forall i, 1 <= i < k -> comparator (key_of n i) key < 0) /\
    (forall i, k <= i < GetSize n -> 0 <= comparator (key_of n i) key) /\
    Lookup comparator default_key n key
    = if k =? GetSize n then ValueAt default_key n (GetSize n - 1)
      else if comparator (key_of n k) key =? 0 then ValueAt default_key n k
           else ValueAt default_key n (k - 1).
Proof.
  intros laws [Hsize Hcap] Hasc.
  destruct (lower_bound_spec n key laws Hasc _ 1 (GetSize n - 1) eq_refl)
    as (Hr & Hlow & Hhigh); try (intros; lia).
  simpl in Hr, Hlow, Hhigh.
  exists (search n key 1 (GetSize n - 1)).
  split; [lia |]. split; [exact Hlow |]. split; [exact Hhigh |].
  unfold Lookup. set (k := search n key 1 (GetSize n - 1)) in *.
  destruct (Z.eqb_spec k (GetSize n)); [reflexivity |].
  fold (key_of n k). rewrite !ValueAt_in_range by lia. reflexivity.
Qed.

(** C6.  On an internal page whose keys in slots [1, size) are strictly
    ascending, [Lookup] returns [ValueAt(i)] when the key in slot [i]
    compares equal to the key looked up, [ValueAt(i - 1)] when [i] is the
    first slot of [1, size) whose key is larger, and the last child
    [ValueAt(size - 1)] when every key in [1, size) is smaller.  In each
    case the call returns a child. *)
Theorem Lookup_in_sorted_internal (n : t) (key : K) :
  ComparatorLaws comparator ->
  internal_fits n ->
  ascending n ->
  (forall i, 1 <= i < GetSize n ->
     comparator (key_of n i) key = 0 ->
     Lookup comparator default_key n key = ValueAt default_key n i) /\
  (forall i, 1 <= i < GetSize n ->
     0 < comparator (key_of n i) key ->
     (forall j, 1 <= j < i -> comparator (key_of n j) key <= 0) ->
     Lookup comparator default_key n key = ValueAt default_key n (i - 1)) /\
  ((forall i, 1 <= i < GetSize n -> comparator (key_of n i) key < 0) ->
   Lookup comparator default_key n key
   = ValueAt default_key n (GetSize n - 1)) /\
  (exists child, Lookup comparator default_key n key = Returned child).
Proof.
  intros laws Hfits Hasc.
  destruct (Lookup_by_lower_bound n key laws Hfits Hasc)
    as (k & Hk & Hlow & Hhigh & ->).
  destruct Hfits as [Hsize Hcap].
  repeat split.
  - intros i Hi Heq.
    assert (k <= i).
    { destruct (Z.le_gt_cases k i) as [H|H]; [exact H |].
      specialize (Hlow i ltac:(lia)). lia. }
    destruct (Z.eqb_spec k (GetSize n)); [lia |].
    destruct (Z.eq_dec k i) as [->|Hne].
    + rewrite Heq. reflexivity.
    + assert (comparator (key_of n k) key < 0).
      { apply (comparator_equal_r _ laws) with (b := key_of n i);
          [apply Hasc; lia | exact Heq]. }
      specialize (Hhigh k ltac:(lia)). lia.
  - intros i Hi Hgt Hfirst.
    assert (k <= i).
    { destruct (Z.le_gt_cases k i) as [H|H]; [exact H |].
      specialize (Hlow i ltac:(lia)). lia. }
    destruct (Z.eqb_spec k (GetSize n)); [lia |].
    destruct (Z.eq_dec k i) as [->|Hne].
    + destruct (Z.eqb_spec (comparator (key_of n i) key) 0); [lia |].
      reflexivity.
    + assert (Hk0 : comparator (key_of n k) key = 0).
      { specialize (Hhigh k ltac:(lia)). specialize (Hfirst k ltac:(lia)).
        lia. }
      rewrite Hk0. simpl.
      destruct (Z.eq_dec k (i - 1)) as [->|Hne']; [reflexivity |].
      exfalso.
      assert (Hlt : comparator (key_of n k) (key_of n (i - 1)) < 0)
        by (apply Hasc; lia).
      specialize (Hfirst (i - 1) ltac:(lia)).
      assert (comparator (key_of n k) key < 0); [| lia].
      destruct (Z.eq_dec (comparator (key_of n (i - 1)) key) 0) as [E|E].
      * apply (comparator_equal_r _ laws) with (b := key_of n (i - 1));
          assumption.
      * apply (comparator_trans _ laws) with (b := key_of n (i - 1));
          [assumption | lia].
  - intros Hall.
    destruct (Z.eqb_spec k (GetSize n)); [reflexivity |].
    specialize (Hhigh k ltac:(lia)). specialize (Hall k ltac:(lia)). lia.
  - destruct (Z.eqb_spec k (GetSize n)).
    + rewrite ValueAt_in_range by lia. eauto.
    + destruct (comparator (key_of n k) key =? 0);
        rewrite ValueAt_in_range by lia; eauto.
Qed.

End InternalFacts.

(** ** Integer keys *)

Lemma int_comparator_laws : ComparatorLaws int_comparator.
Proof.
  split; unfold int_comparator; intros a b;
    [intros c | | intros c];
    repeat match goal with
           | |- context [?x <? ?y] => destruct (Z.ltb_spec x y)
           | |- context [?x =? ?y] => destruct (Z.eqb_spec x y)
           end; lia.
Qed.

Lemma sample_internal_ascending :
  internal_ascending int_comparator 0 sample_internal.
Proof.
  intros i j Hi Hij Hj. change (j < 4) in Hj.
  assert (H : (i = 1 /\ j = 2) \/ (i = 1 /\ j = 3) \/ (i = 2 /\ j = 3))
    by lia.
  destruct H as [[-> ->]|[[-> ->]|[-> ->]]]; reflexivity.
Qed.

Lemma sample_leaf_ascending :
  leaf_ascending int_comparator 0 0 sample_leaf.
Proof.
  intros i j Hi Hij Hj. change (j < 3) in Hj.
  assert (H : (i = 0 /\ j = 1) \/ (i = 0 /\ j = 2) \/ (i = 1 /\ j = 2))
    by lia.
  destruct H as [[-> ->]|[[-> ->]|[-> ->]]]; reflexivity.
Qed.

Lemma Lookup_in_sorted_internal_witness :
  internal_fits sample_internal /\
  BPlusTreeInternalPage.Lookup int_comparator 0 sample_internal 9
  = BPlusTreeInternalPage.ValueAt 0 sample_internal 2.
Proof.
  assert (Hfits : internal_fits sample_internal)
    by (unfold internal_fits; cbn; lia).
  split; [exact Hfits |].
  apply (Lookup_in_sorted_internal int_comparator 0 sample_internal 9
           int_comparator_laws Hfits sample_internal_ascending).
  - cbn. lia.
  - reflexivity.
Defined.

Lemma Insert_into_sorted_leaf_witness :
  leaf_fits sample_leaf /\
  (BPlusTreeLeafPage.Insert int_comparator 0 0 6 60 sample_leaf).1 = 4 /\
  leaf_ascending int_comparator 0 0
    (BPlusTreeLeafPage.Insert int_comparator 0 0 6 60 sample_leaf).2.
Proof.
  assert (Hfits : leaf_fits sample_leaf)
    by (unfold leaf_fits; cbn; lia).
  split; [exact Hfits |].
  destruct (Insert_into_sorted_leaf int_comparator 0 0 sample_leaf 6 60
              int_comparator_laws Hfits sample_leaf_ascending)
    as [_ Hins].
  destruct Hins as (Hret & _ & _ & Hasc & _).
  - intros (i & Hi & Heq). change (0 <= i < 3) in Hi.
    assert (H : i = 0 \/ i = 1 \/ i = 2) by lia.
    destruct H as [-> | [-> | ->]]; discriminate Heq.
  - cbn. lia.
  - split; [exact Hret | exact Hasc].
Defined.

(** ** Moving entries between leaves *)

Section LeafMoveFacts.
Context {K V : Type} (default_key : K) (default_value : V).
Import BPlusTreeLeafPage.

Local Abbreviation dummy := (dummy_item default_key default_value).

Lemma CopyLastFrom_full (item : K * V) (recipient : t) :
  GetMaxSize recipient <= GetSize recipient ->
  CopyLastFrom item recipient = recipient.
Proof.
  intros Hfull. unfold CopyLastFrom.
  destruct (Z.geb_spec (GetSize recipient) (GetMaxSize recipient));
    [reflexivity | lia].
Qed.

Lemma CopyFirstFrom_full (item : K * V) (recipient : t) :
  GetMaxSize recipient <= GetSize recipient ->
  CopyFirstFrom default_key default_value item recipient = recipient.
Proof.
  intros Hfull. unfold CopyFirstFrom.
  destruct (Z.geb_spec (GetSize recipient) (GetMaxSize recipient));
    [reflexivity | lia].
Qed.

(** C10.  A leaf with [size >= max_size] is left entirely unchanged by
    [CopyLastFrom] and by [CopyFirstFrom].  So when a non-empty leaf moves
    its first entry to the end of such a leaf, or its last entry to the
    front of it, the source shrinks by one, the recipient stays as it
    was, and the entries left in the source are its old entries without
    the moved one: the moved entry is in neither page. *)
Theorem Move_into_full_leaf_drops_entry (this recipient : t) (item : K * V) :
  GetMaxSize recipient <= GetSize recipient ->
  0 < GetSize this ->
  CopyLastFrom item recipient = recipient /\
  CopyFirstFrom default_key default_value item recipient = recipient /\
  (let moved := MoveFirstToEndOf default_key default_value this recipient in
   moved.2 = recipient /\
   GetSize moved.1 = GetSize this - 1 /\
   (GetSize this <= Z.of_nat (length (array this)) ->
    entries moved.1 = drop 1 (entries this))) /\
  (let moved := MoveLastToFrontOf default_key default_value this recipient in
   moved.2 = recipient /\
   GetSize moved.1 = GetSize this - 1 /\
   (GetSize this <= Z.of_nat (length (array this)) ->
    entries moved.1 = take (Z.to_nat (GetSize this - 1)) (entries this))).
Proof.
  intros Hfull Hsize.
  split; [now apply CopyLastFrom_full |].
  split; [now apply CopyFirstFrom_full |].
  split.
  - unfold MoveFirstToEndOf.
    destruct (Z.eqb_spec (GetSize this) 0); [lia |].
    simpl. rewrite CopyLastFrom_full by assumption.
    split; [reflexivity |]. split; [unfold GetSize; simpl; lia |].
    intros Hcap. unfold entries.
    replace (GetSize (IncreaseSize (-1) (set_array
               (shift_left dummy 0 (GetSize this - 1) (array this)) this)))
      with (GetSize this - 1) by (unfold GetSize; simpl; lia).
    simpl.
    destruct (shift_left_spec dummy _ 0 (GetSize this - 1) (array this)
                eq_refl) as [Hlen Hget]; try lia.
    apply (take_shifted_left dummy); try lia; try assumption.
    intros j Hj. rewrite Hget.
    destruct (Z.leb_spec 0 j), (Z.ltb_spec j (GetSize this - 1));
      simpl; try reflexivity; lia.
  - unfold MoveLastToFrontOf.
    destruct (Z.eqb_spec (GetSize this) 0); [lia |].
    simpl. rewrite CopyFirstFrom_full by assumption.
    split; [reflexivity |]. split; [unfold GetSize; simpl; lia |].
    intros Hcap. unfold entries.
    replace (GetSize (IncreaseSize (-1) this)) with (GetSize this - 1)
      by (unfold GetSize; simpl; lia).
    simpl. rewrite take_take. f_equal. lia.
Qed.

End LeafMoveFacts.

Lemma Move_into_full_leaf_drops_entry_witness :
  let first :=
    BPlusTreeLeafPage.MoveFirstToEndOf 0 0 sample_leaf full_leaf in
  let last :=
    BPlusTreeLeafPage.MoveLastToFrontOf 0 0 sample_leaf full_leaf in
  first.2 = full_leaf /\ BPlusTreeLeafPage.GetSize first.1 = 2 /\
  last.2 = full_leaf /\ BPlusTreeLeafPage.GetSize last.1 = 2.
Proof.
  destruct (Move_into_full_leaf_drops_entry 0 0 sample_leaf full_leaf (0, 0))
    as (_ & _ & (H1 & H2 & _) & (H3 & H4 & _)).
  - cbn. lia.
  - cbn. lia.
  - repeat split; assumption.
Defined.

(** ** Accessors called with an index outside [0, size) *)

Section AccessorFacts.
Context {K V : Type} (default_key : K) (default_value : V).

(** C9, as the code has it.  With an index outside [0, size), the
    accessors of an internal page ([KeyAt], [ValueAt], [SetKeyAt],
    [Remove]) throw an out-of-range exception; none returns a value and
    the page stays as it was.  The accessors of a leaf page do not throw:
    [KeyAt] returns the value-initialised key and [GetItem] returns entry
    0, or the value-initialised item when the leaf is empty; they do not
    write to the page. *)
Theorem accessors_out_of_range
    (n : @BPlusTreeInternalPage.t K) (l : @BPlusTreeLeafPage.t K V)
    (index leaf_index : Z) (key : K) :
  ~ (0 <= index < BPlusTreeInternalPage.GetSize n) ->
  ~ (0 <= leaf_index < BPlusTreeLeafPage.GetSize l) ->
  BPlusTreeInternalPage.KeyAt default_key n index = Threw OUT_OF_RANGE /\
  BPlusTreeInternalPage.ValueAt default_key n index = Threw OUT_OF_RANGE /\
  BPlusTreeInternalPage.SetKeyAt default_key index key n
  = (Threw OUT_OF_RANGE, n) /\
  BPlusTreeInternalPage.Remove default_key index n
  = (Threw OUT_OF_RANGE, n) /\
  BPlusTreeLeafPage.KeyAt default_key default_value l leaf_index
  = Returned default_key /\
  BPlusTreeLeafPage.GetItem default_key default_value l leaf_index
  = Returned (if BPlusTreeLeafPage.GetSize l >? 0
              then BPlusTreeLeafPage.at_ default_key default_value l 0
              else BPlusTreeLeafPage.dummy_item default_key default_value).
Proof.
  intros Hn Hl.
  assert (En : BPlusTreeInternalPage.out_of_range n index = true).
  { unfold BPlusTreeInternalPage.out_of_range.
    destruct (Z.ltb_spec index 0),
      (Z.geb_spec index (BPlusTreeInternalPage.GetSize n));
      simpl; try reflexivity; lia. }
  assert (El : BPlusTreeLeafPage.out_of_range l leaf_index = true).
  { unfold BPlusTreeLeafPage.out_of_range.
    destruct (Z.ltb_spec leaf_index 0),
      (Z.geb_spec leaf_index (BPlusTreeLeafPage.GetSize l));
      simpl; try reflexivity; lia. }
  unfold BPlusTreeInternalPage.KeyAt, BPlusTreeInternalPage.ValueAt,
    BPlusTreeInternalPage.SetKeyAt, BPlusTreeInternalPage.Remove,
    BPlusTreeLeafPage.KeyAt, BPlusTreeLeafPage.GetItem.
  rewrite En, El. repeat split.
  destruct (BPlusTreeLeafPage.GetSize l >? 0); reflexivity.
Qed.

End AccessorFacts.

Lemma accessors_out_of_range_witness :
  BPlusTreeInternalPage.KeyAt 0 sample_internal 4 = Threw OUT_OF_RANGE /\
  BPlusTreeInternalPage.Remove 0 (-1) sample_internal
  = (Threw OUT_OF_RANGE, sample_internal) /\
  BPlusTreeLeafPage.KeyAt 0 0 sample_leaf 3 = Returned 0.
Proof.
  destruct (accessors_out_of_range 0 0 sample_internal sample_leaf 4 3 0)
    as (H1 & _ & _ & _ & H5 & _); [cbn; lia | cbn; lia |].
  destruct (accessors_out_of_range 0 0 sample_internal sample_leaf (-1) 3 0)
    as (_ & _ & _ & H4 & _); [cbn; lia | cbn; lia |].
  repeat split; assumption.
Defined.

(** C9 as the specification states it fails on leaves: index 5 is outside
    [0, 3), and yet [KeyAt] and [GetItem] of the sample leaf return a
    value instead of throwing. *)
Lemma leaf_accessors_return_out_of_range :
  ~ (0 <= 5 < BPlusTreeLeafPage.GetSize sample_leaf) /\
  BPlusTreeLeafPage.KeyAt 0 0 sample_leaf 5 = Returned 0 /\
  BPlusTreeLeafPage.KeyAt 0 0 sample_leaf 5 <> Threw OUT_OF_RANGE /\
  BPlusTreeLeafPage.GetItem 0 0 sample_leaf 5 = Returned (1, 10) /\
  BPlusTreeLeafPage.GetItem 0 0 sample_leaf 5 <> Threw OUT_OF_RANGE.
Proof.
  repeat split; try discriminate. cbn. lia.
Qed.

(** ** More on the replacer *)

Section ReplacerOrderFacts.
Import LRUReplacer.

Lemma erase_first_absent (f : frame_id_t) (l : list frame_id_t) :
  f ∉ l -> erase_first f l = l.
Proof.
  induction l as [|x l IH]; simpl; [reflexivity |].
  rewrite not_elem_of_cons. intros [Hne Hnin].
  destruct (Z.eqb_spec x f); [congruence |]. now rewrite IH.
Qed.

Lemma erase_first_subset (f x : frame_id_t) (l : list frame_id_t) :
  x ∈ erase_first f l -> x ∈ l.
Proof.
  induction l as [|y l IH]; simpl; [easy |].
  destruct (Z.eqb_spec y f).
  - intros H. now right.
  - rewrite !elem_of_cons. intros [->|H]; [now left | right; auto].
Qed.

Lemma erase_first_NoDup (f : frame_id_t) (l : list frame_id_t) :
  NoDup l -> NoDup (erase_first f l).
Proof.
  induction 1 as [|x l Hx Hl IH]; simpl; [constructor |].
  destruct (Z.eqb_spec x f); [assumption |].
  constructor; [| assumption].
  intros H. apply Hx. eapply erase_first_subset, H.
Qed.

Lemma erase_first_filter (f : frame_id_t) (l : list frame_id_t) :
  NoDup l -> erase_first f l = filter (fun x => x <> f) l.
Proof.
  induction 1 as [|x l Hx Hl IH]; simpl; [reflexivity |].
  destruct (Z.eqb_spec x f) as [->|Hne].
  - rewrite filter_cons_False by tauto.
    symmetry. clear IH Hl. induction l as [|y l IH]; [reflexivity |].
    apply not_elem_of_cons in Hx as [Hy Hl].
    rewrite filter_cons_True by congruence. f_equal. auto.
  - rewrite filter_cons_True by assumption. now rewrite IH.
Qed.

Lemma erase_first_snoc (f : frame_id_t) (l : list frame_id_t) :
  f ∉ l -> erase_first f (l ++ [f]) = l.
Proof.
  induction l as [|x l IH]; simpl.
  - intros _. now rewrite Z.eqb_refl.
  - rewrite not_elem_of_cons. intros [Hne Hnin].
    destruct (Z.eqb_spec x f); [congruence |]. now rewrite IH.
Qed.

(** X1.  No frame is ever tracked twice: if the frames of the replacer
    are pairwise distinct, they still are after [Unpin], after [Pin] and
    after [Victim], for every frame argument. *)
Theorem Replacer_keeps_frames_distinct (r : t) (f : frame_id_t) :
  NoDup (unpinned_frames r) ->
  NoDup (unpinned_frames (Unpin f r)) /\
  NoDup (unpinned_frames (Pin f r)) /\
  NoDup (unpinned_frames (Victim r).2).
Proof.
  intros Hnd. repeat split.
  - unfold Unpin. destruct (f <? 0); [assumption |].
    destruct (already_unpinned f (unpinned_frames r)) eqn:E;
      [assumption |].
    simpl. apply NoDup_app. repeat split; [assumption | | apply NoDup_singleton].
    intros x Hx Hx'. apply list_elem_of_singleton in Hx' as ->.
    apply already_unpinned_spec in Hx. congruence.
  - simpl. now apply erase_first_NoDup.
  - unfold Victim. destruct (unpinned_frames r) as [|x l] eqn:E; simpl.
    + rewrite E. constructor.
    + now apply NoDup_cons_1_2 in Hnd.
Qed.

Lemma Replacer_keeps_frames_distinct_witness :
  NoDup (unpinned_frames (Unpin 7 (mk [3; 1; 2]))) /\
  NoDup (unpinned_frames (Pin 7 (mk [3; 1; 2]))) /\
  NoDup (unpinned_frames (Victim (mk [3; 1; 2])).2).
Proof.
  apply (Replacer_keeps_frames_distinct (mk [3; 1; 2]) 7).
  simpl. apply NoDup_ListNoDup. repeat constructor; simpl; lia.
Defined.

Lemma Pin_frame_filter (r : t) (f : frame_id_t) :
  NoDup (unpinned_frames r) ->
  unpinned_frames (Pin f r) = filter (fun x => x <> f) (unpinned_frames r) /\
  f ∉ unpinned_frames (Pin f r).
Proof.
  intros Hnd. simpl. rewrite erase_first_filter by assumption.
  split; [reflexivity |]. rewrite list_elem_of_filter. tauto.
Qed.

(** X2.  On a replacer without repeated frames, [Pin] removes the frame
    and keeps every other frame in its place; when the frame is not
    tracked, [Pin] changes nothing. *)
Theorem Pin_removes_only_that_frame (r : t) (f : frame_id_t) :
  NoDup (unpinned_frames r) ->
  unpinned_frames (Pin f r) = filter (fun x => x <> f) (unpinned_frames r) /\
  (f ∉ unpinned_frames (Pin f r)) /\
  (f ∉ unpinned_frames r -> Pin f r = r).
Proof.
  intros Hnd. destruct (Pin_frame_filter r f Hnd) as [E Hnin].
  repeat split; [exact E | exact Hnin |].
  intros Habs. destruct r as [l]. unfold Pin. simpl in *.
  now rewrite erase_first_absent.
Qed.

Lemma Pin_removes_only_that_frame_witness :
  unpinned_frames (Pin 1 (mk [3; 1; 2])) = [3; 2] /\
  1 ∉ unpinned_frames (Pin 1 (mk [3; 1; 2])).
Proof.
  destruct (Pin_removes_only_that_frame (mk [3; 1; 2]) 1) as (H1 & H2 & _).
  - simpl. apply NoDup_ListNoDup. repeat constructor; simpl; lia.
  - split; [exact H1 | exact H2].
Defined.

Lemma unpin_all_app (fs l : list frame_id_t) :
  NoDup (l ++ fs) -> (forall f, f ∈ fs -> 0 <= f) ->
  unpin_all fs (mk l) = mk (l ++ fs).
Proof.
  revert l. induction fs as [|f fs IH]; intros l Hnd Hpos; simpl.
  - now rewrite app_nil_r.
  - rewrite Unpin_absent.
    + simpl. rewrite IH.
      * now rewrite <- app_assoc.
      * now rewrite <- app_assoc.
      * intros x Hx. apply Hpos. now right.
    + apply Hpos. left.
    + simpl. apply NoDup_app in Hnd as (_ & Hdisj & _).
      intros Hin. apply (Hdisj f Hin). left.
Qed.

Lemma victims_drain (l : list frame_id_t) :
  victims (S (length l)) (mk l) = (Some <$> l) ++ [None].
Proof.
  induction l as [|x l IH]; [reflexivity |].
  change (victims (S (length (x :: l))) (mk (x :: l)))
    with (Some x :: victims (S (length l)) (mk l)).
  now rewrite IH.
Qed.

(** X3.  First in, first out.  Unpinning pairwise distinct, nonnegative
    frames into a new replacer tracks exactly those frames in that order,
    whatever [num_pages] was given to the constructor: [Size] is their
    number, and as many calls of [Victim] plus one yield them in the
    order they were unpinned and then nothing. *)
Theorem unpin_all_then_victims_fifo (fs : list frame_id_t) (num_pages : Z) :
  NoDup fs -> (forall f, f ∈ fs -> 0 <= f) ->
  let r := unpin_all fs (create num_pages) in
  unpinned_frames r = fs /\
  Size r = Z.of_nat (length fs) /\
  victims (S (length fs)) r = (Some <$> fs) ++ [None].
Proof.
  intros Hnd Hpos r.
  assert (E : r = mk fs) by (apply (unpin_all_app fs []); assumption).
  rewrite E. repeat split. apply victims_drain.
Qed.

Lemma unpin_all_then_victims_fifo_witness :
  let r := unpin_all [4; 0; 2] (create 2) in
  unpinned_frames r = [4; 0; 2] /\
  Size r = 3 /\
  victims 4 r = [Some 4; Some 0; Some 2; None].
Proof.
  apply (unpin_all_then_victims_fifo [4; 0; 2] 2).
  - apply NoDup_ListNoDup. repeat constructor; simpl; lia.
  - intros f Hf. apply list_elem_of_In in Hf. simpl in Hf. lia.
Defined.

(** X4.  [Unpin] of a nonnegative frame that is not tracked makes the
    replacer one frame larger, and [Pin] of the same frame undoes it. *)
Theorem Unpin_then_Pin_restores (r : t) (f : frame_id_t) :
  0 <= f -> f ∉ unpinned_frames r ->
  Size (Unpin f r) = Size r + 1 /\
  Pin f (Unpin f r) = r.
Proof.
  intros Hf Hnin. rewrite Unpin_absent by assumption.
  destruct r as [l]. unfold Size, Pin. simpl in *.
  rewrite length_app, erase_first_snoc by assumption. simpl.
  split; [lia | reflexivity].
Qed.

Lemma Unpin_then_Pin_restores_witness :
  Size (Unpin 5 (mk [3; 1])) = 3 /\ Pin 5 (Unpin 5 (mk [3; 1])) = mk [3; 1].
Proof.
  apply (Unpin_then_Pin_restores (mk [3; 1]) 5); [lia |].
  simpl. intros H. apply list_elem_of_In in H. simpl in H. lia.
Defined.

(** X5.  A tracked, nonnegative frame that is pinned and unpinned again
    becomes the most recently used one: it moves to the back and the
    other frames keep their order. *)
Theorem Pin_then_Unpin_moves_to_back (r : t) (f : frame_id_t) :
  NoDup (unpinned_frames r) -> 0 <= f -> f ∈ unpinned_frames r ->
  unpinned_frames (Unpin f (Pin f r))
  = filter (fun x => x <> f) (unpinned_frames r) ++ [f].
Proof.
  intros Hnd Hf Hin.
  destruct (Pin_frame_filter r f Hnd) as [E Hnin].
  rewrite Unpin_absent by assumption. simpl. now rewrite <- E.
Qed.

End ReplacerOrderFacts.

Lemma Pin_then_Unpin_moves_to_back_witness :
  LRUReplacer.unpinned_frames
    (LRUReplacer.Unpin 1 (LRUReplacer.Pin 1 (LRUReplacer.mk [3; 1; 2])))
  = [3; 2; 1].
Proof.
  apply (Pin_then_Unpin_moves_to_back (LRUReplacer.mk [3; 1; 2]) 1).
  - simpl. apply NoDup_ListNoDup. repeat constructor; simpl; lia.
  - lia.
  - apply list_elem_of_In. simpl. tauto.
Defined.

(** ** More on arrays: searching, copying, removing *)

Section ArraySliceFacts.
Context {E : Type} (dflt : E).

Lemma first_index_spec (p : Z -> bool) (n : nat) :
  forall lo hi, Z.to_nat (hi - lo) = n ->
    match first_index lo hi p with
    | Some i => lo <= i < hi /\ p i = true /\
                forall j, lo <= j < i -> p j = false
    | None => forall j, lo <= j < hi -> p j = false
    end.
Proof.
  unfold first_index.
  induction n as [|n IH]; intros lo hi Hn.
  - rewrite seqZ_nil by lia. simpl. intros j Hj. lia.
  - rewrite seqZ_cons by lia. simpl.
    destruct (p lo) eqn:Ep.
    + split; [lia |]. split; [exact Ep |]. intros j Hj. lia.
    + specialize (IH (Z.succ lo) hi ltac:(lia)).
      replace (Z.pred (hi - lo)) with (hi - Z.succ lo) by lia.
      destruct (find p (seqZ (Z.succ lo) (hi - Z.succ lo))) as [i|].
      * destruct IH as (Hi & Hp & Hbefore).
        split; [lia |]. split; [exact Hp |].
        intros j Hj. destruct (Z.eq_dec j lo) as [->|Hne]; [exact Ep |].
        apply Hbefore. lia.
      * intros j Hj. destruct (Z.eq_dec j lo) as [->|Hne]; [exact Ep |].
        apply IH. lia.
Qed.

(** [for (i = lo; i < hi; i++) array[base + i] = src(i)]. *)
Lemma copy_loop_spec (tgt : Z -> Z) (base : Z) (src : Z -> E) (n : nat) :
  (forall i, tgt i = base + i) ->
  forall (lo hi : Z) (a : list E),
    Z.to_nat (hi - lo) = n -> 0 <= base + lo ->
    base + hi <= Z.of_nat (length a) ->
    let a' := for_up lo hi (fun i a => array_set a (tgt i) (src i)) a in
    length a' = length a /\
    forall j, array_get dflt a' j
              = if (base + lo <=? j) && (j <? base + hi)
                then src (j - base) else array_get dflt a j.
Proof.
  intros Htgt. induction n as [|n IH]; intros lo hi a Hn Hlo Hhi; simpl.
  - rewrite for_up_done by lia. split; [reflexivity |].
    intros j. destruct (Z.leb_spec (base + lo) j), (Z.ltb_spec j (base + hi));
      simpl; try reflexivity; lia.
  - rewrite for_up_step by lia.
    set (a1 := array_set a (tgt lo) (src lo)).
    destruct (IH (lo + 1) hi a1) as [Hlen Hget]; try lia.
    { unfold a1. rewrite length_array_set. lia. }
    split; [rewrite Hlen; apply length_array_set |].
    intros j. rewrite Hget. unfold a1. rewrite Htgt.
    destruct (Z.eq_dec j (base + lo)) as [->|Hj].
    + rewrite array_get_set_eq by lia.
      replace (base + lo - base) with lo by lia.
      destruct (Z.leb_spec (base + (lo + 1)) (base + lo)),
        (Z.leb_spec (base + lo) (base + lo)),
        (Z.ltb_spec (base + lo) (base + hi)); simpl; try reflexivity; lia.
    + rewrite array_get_set_ne by lia.
      destruct (Z.leb_spec (base + (lo + 1)) j), (Z.leb_spec (base + lo) j),
        (Z.ltb_spec j (base + hi)); simpl; try reflexivity; lia.
Qed.

(** An array whose slots are those of [a] without slot [index]. *)
Lemma take_removed (a a' : list E) (size index : Z) :
  0 <= index < size -> size <= Z.of_nat (length a) ->
  length a' = length a ->
  (forall j, 0 <= j < size - 1 ->
             array_get dflt a' j
             = if j <? index then array_get dflt a j
               else array_get dflt a (j + 1)) ->
  take (Z.to_nat (size - 1)) a'
  = take (Z.to_nat index) (take (Z.to_nat size) a)
    ++ drop (S (Z.to_nat index)) (take (Z.to_nat size) a).
Proof.
  intros Hindex Hsize Hlen Hget.
  assert (Hl1 : length (take (Z.to_nat index) (take (Z.to_nat size) a))
                = Z.to_nat index)
    by (rewrite !length_take; lia).
  apply (take_slots dflt).
  - rewrite length_app, Hl1, length_drop, length_take. lia.
  - lia.
  - intros i Hi. rewrite Hget by lia.
    destruct (Z.ltb_spec (Z.of_nat i) index).
    + rewrite lookup_app_l by lia.
      rewrite !lookup_take_lt by lia. apply array_get_lookup. lia.
    + rewrite lookup_app_r by lia. rewrite Hl1.
      rewrite lookup_drop, lookup_take_lt by lia.
      replace (Z.of_nat i + 1)
        with (Z.of_nat (S (Z.to_nat index) + (i - Z.to_nat index))) by lia.
      apply array_get_lookup. lia.
Qed.

(** An array whose slots [0, size) are those of [a] and whose next
    [count] slots are the first slots of [items]. *)
Lemma take_appended (a a' items : list E) (size count : Z) :
  0 <= size -> 0 <= count ->
  size + count <= Z.of_nat (length a) ->
  count <= Z.of_nat (length items) ->
  length a' = length a ->
  (forall j, 0 <= j < size + count ->
             array_get dflt a' j
             = if j <? size then array_get dflt a j
               else array_get dflt items (j - size)) ->
  take (Z.to_nat (size + count)) a'
  = take (Z.to_nat size) a ++ take (Z.to_nat count) items.
Proof.
  intros Hsize Hcount Hcap Hitems Hlen Hget.
  assert (Hl1 : length (take (Z.to_nat size) a) = Z.to_nat size)
    by (rewrite length_take; lia).
  apply (take_slots dflt).
  - rewrite length_app, Hl1, length_take. lia.
  - lia.
  - intros i Hi. rewrite Hget by lia.
    destruct (Z.ltb_spec (Z.of_nat i) size).
    + rewrite lookup_app_l by lia.
      rewrite lookup_take_lt by lia. apply array_get_lookup. lia.
    + rewrite lookup_app_r by lia. rewrite Hl1.
      rewrite lookup_take_lt by lia.
      replace (Z.of_nat i - size) with (Z.of_nat (i - Z.to_nat size)) by lia.
      apply array_get_lookup. lia.
Qed.

(** The first [size] slots, read off as a list, give each slot back. *)
Lemma take_lookup_slot (a : list E) (size : Z) (i : Z) :
  0 <= i < size -> size <= Z.of_nat (length a) ->
  take (Z.to_nat size) a !! Z.to_nat i = Some (array_get dflt a i).
Proof.
  intros Hi Hsize. rewrite lookup_take_lt by lia.
  rewrite (array_get_lookup dflt) by lia. f_equal. f_equal. lia.
Qed.

End ArraySliceFacts.

(** ** More on leaf pages: lookup *)

(** One turn of the loop of [KeyIndex]. *)
Lemma KeyIndex_loop_step {K V : Type} (comparator : K -> K -> Z)
    (default_key : K) (default_value : V)
    (n : BPlusTreeLeafPage.t) (key : K) (left_ right_ : Z) :
  BPlusTreeLeafPage.KeyIndex_loop comparator default_key default_value
    n key left_ right_
  = if decide (left_ < right_)
    then if comparator
              (leaf_key default_key default_value n
                 (left_ + Z.quot (right_ - left_) 2)) key <? 0
         then BPlusTreeLeafPage.KeyIndex_loop comparator default_key
                default_value n key
                (left_ + Z.quot (right_ - left_) 2 + 1) right_
         else BPlusTreeLeafPage.KeyIndex_loop comparator default_key
                default_value n key left_
                (left_ + Z.quot (right_ - left_) 2)
    else left_.
Proof. apply KeyIndex_loop_unfold. Qed.

Section LeafLookupFacts.
Context {K V : Type} (comparator : K -> K -> Z)
        (default_key : K) (default_value : V).
Import BPlusTreeLeafPage.

Local Abbreviation key_of := (leaf_key default_key default_value).
Local Abbreviation ascending :=
  (leaf_ascending comparator default_key default_value).
Local Abbreviation has_key :=
  (leaf_has_key comparator default_key default_value).
Local Abbreviation loop := (KeyIndex_loop comparator default_key default_value).
Local Abbreviation item_at := (at_ default_key default_value).
Local Abbreviation key_index :=
  (KeyIndex comparator default_key default_value).
Local Abbreviation lookup_key :=
  (Lookup comparator default_key default_value).

(** The loop of [KeyIndex] stays between its bounds, sorted page or not. *)
Lemma KeyIndex_loop_range (n : t) (key : K) :
  forall (m : nat) (left_ right_ : Z),
    Z.to_nat (right_ - left_) = m -> left_ <= right_ ->
    left_ <= loop n key left_ right_ <= right_.
Proof.
  induction m as [m IH] using lt_wf_ind.
  intros left_ right_ Hm Hlr.
  rewrite KeyIndex_loop_step.
  destruct (decide (left_ < right_)) as [Hlt|Hge]; [| lia].
  pose proof (Z.quot_div_nonneg (right_ - left_) 2 ltac:(lia) ltac:(lia))
    as Hq.
  set (mid := left_ + Z.quot (right_ - left_) 2) in *.
  assert (Hmid : left_ <= mid < right_).
  { unfold mid. rewrite Hq.
    assert ((right_ - left_) / 2 < right_ - left_) by (apply Z.div_lt; lia).
    assert (0 <= (right_ - left_) / 2) by (apply Z.div_pos; lia). lia. }
  destruct (comparator (key_of n mid) key <? 0).
  - specialize (IH (Z.to_nat (right_ - (mid + 1))) ltac:(lia)
                  (mid + 1) right_ eq_refl ltac:(lia)). lia.
  - specialize (IH (Z.to_nat (mid - left_)) ltac:(lia)
                  left_ mid eq_refl ltac:(lia)). lia.
Qed.

Lemma KeyIndex_nonneg (n : t) (key : K) : 0 <= key_index n key.
Proof.
  unfold KeyIndex. destruct (Z.le_gt_cases 0 (GetSize n)) as [H|H].
  - apply (KeyIndex_loop_range n key _ 0 (GetSize n) eq_refl H).
  - rewrite KeyIndex_loop_step.
    destruct (decide (0 < GetSize n)); lia.
Qed.

(** X6.  On a leaf sorted strictly ascending, [KeyIndex] returns the
    first index whose key is not smaller than the key given: every key
    before it is smaller, no key from it on is, and the index is [size]
    when all keys are smaller. *)
Theorem KeyIndex_first_not_smaller (n : t) (key : K) :
  ComparatorLaws comparator -> ascending n -> 0 <= GetSize n ->
  0 <= key_index n key <= GetSize n /\
  (forall i, 0 <= i < key_index n key ->
             comparator (key_of n i) key < 0) /\
  (forall i, key_index n key <= i < GetSize n ->
             0 <= comparator (key_of n i) key).
Proof.
  intros laws Hasc Hsize.
  exact (KeyIndex_spec comparator default_key default_value n key
           laws Hasc Hsize).
Qed.

(** X7.  [Lookup] of a leaf, sorted or not: with a null out pointer it
    returns false; otherwise it returns true exactly when some entry has
    a key that compares equal, the value it stores is the value of such
    an entry, and it stores nothing when it returns false. *)
Theorem Lookup_found_iff_key_present (n : t) (key : K) :
  lookup_key n key true = (false, None) /\
  ((lookup_key n key false).1 = true <-> has_key n key) /\
  (forall v, (lookup_key n key false).2 = Some v ->
     exists i, 0 <= i < GetSize n /\ comparator (key_of n i) key = 0 /\
               v = (item_at n i).2) /\
  ((lookup_key n key false).1 = false -> (lookup_key n key false).2 = None).
Proof.
  split; [reflexivity |].
  unfold Lookup. fold (key_index n key).
  pose proof (KeyIndex_nonneg n key) as Hnn.
  set (index := key_index n key) in *.
  fold (key_of n index).
  destruct ((index <? GetSize n) && (comparator (key_of n index) key =? 0))
    eqn:Etest.
  { apply andb_true_iff in Etest as [Hlt Heq].
    apply Z.ltb_lt in Hlt. apply Z.eqb_eq in Heq. simpl.
    split; [| split].
    - split; [intros _ | reflexivity]. exists index. split; [lia | exact Heq].
    - intros v [= <-]. exists index. repeat split; lia.
    - discriminate. }
  pose proof (first_index_spec
                (fun i => comparator (item_at n i).1 key =? 0)
                _ 0 (GetSize n) eq_refl) as Hfind.
  destruct (first_index 0 (GetSize n)
              (fun i => comparator (item_at n i).1 key =? 0)) as [i|]; simpl.
  - destruct Hfind as (Hi & Hp & _). apply Z.eqb_eq in Hp.
    split; [| split].
    + split; [intros _ | reflexivity]. exists i. split; [exact Hi | exact Hp].
    + intros v [= <-]. exists i. repeat split; try lia. exact Hp.
    + discriminate.
  - split; [| split].
    + split; [discriminate |]. intros (i & Hi & Heq).
      specialize (Hfind i Hi). simpl in Hfind. unfold leaf_key in Heq.
      rewrite Heq in Hfind. discriminate.
    + discriminate.
    + reflexivity.
Qed.


Lemma Lookup_sorted_entry (n : t) (key : K) (i : Z) :
  ComparatorLaws comparator -> ascending n ->
  0 <= i < GetSize n -> comparator (key_of n i) key = 0 ->
  lookup_key n key false = (true, Some (item_at n i).2).
Proof.
  intros laws Hasc Hi Heq.
  pose proof (Insert_duplicate_test comparator default_key default_value
                n key laws Hasc ltac:(lia)) as Hdup.
  simpl in Hdup.
  pose proof (KeyIndex_nonneg n key) as Hnn.
  unfold Lookup. fold (key_index n key).
  set (index := key_index n key) in *. fold (key_of n index) in *.
  assert (Htest : (index <? GetSize n)
                  && (comparator (key_of n index) key =? 0) = true).
  { apply Hdup. exists i. split; [lia | exact Heq]. }
  rewrite Htest.
  apply andb_true_iff in Htest as [Hlt Hidx].
  apply Z.ltb_lt in Hlt. apply Z.eqb_eq in Hidx.
  assert (index = i) as ->; [| reflexivity].
  destruct (Z.lt_trichotomy index i) as [H|[H|H]]; [| exact H |]; exfalso.
  - assert (comparator (key_of n index) key < 0); [| lia].
    apply (comparator_equal_r _ laws) with (b := key_of n i);
      [apply Hasc; lia | exact Heq].
  - assert (comparator (key_of n i) key < 0); [| lia].
    apply (comparator_equal_r _ laws) with (b := key_of n index);
      [apply Hasc; lia | exact Hidx].
Qed.

(** X8.  On a leaf sorted strictly ascending, [Lookup] of a key that
    compares equal to the key of entry [i] returns true and stores the
    value of entry [i]. *)
Theorem Lookup_sorted_returns_entry_value (n : t) (key : K) (i : Z) :
  ComparatorLaws comparator -> ascending n ->
  0 <= i < GetSize n -> comparator (key_of n i) key = 0 ->
  lookup_key n key false = (true, Some (item_at n i).2).
Proof. apply Lookup_sorted_entry. Qed.

End LeafLookupFacts.

Lemma KeyIndex_first_not_smaller_witness :
  0 <= BPlusTreeLeafPage.KeyIndex int_comparator 0 0 sample_leaf 6 <= 3 /\
  (forall i,
     0 <= i < BPlusTreeLeafPage.KeyIndex int_comparator 0 0 sample_leaf 6 ->
     int_comparator (leaf_key 0 0 sample_leaf i) 6 < 0) /\
  (forall i,
     BPlusTreeLeafPage.KeyIndex int_comparator 0 0 sample_leaf 6 <= i < 3 ->
     0 <= int_comparator (leaf_key 0 0 sample_leaf i) 6).
Proof.
  apply (KeyIndex_first_not_smaller int_comparator 0 0 sample_leaf 6
           int_comparator_laws sample_leaf_ascending).
  cbn. lia.
Defined.

Lemma Lookup_sorted_returns_entry_value_witness :
  BPlusTreeLeafPage.Lookup int_comparator 0 0 sample_leaf 5 false
  = (true, Some 50).
Proof.
  apply (Lookup_sorted_returns_entry_value int_comparator 0 0 sample_leaf 5 1
           int_comparator_laws sample_leaf_ascending).
  - cbn. lia.
  - reflexivity.
Defined.

(** ** More on leaf pages: insertion and removal *)

Section LeafUpdateFacts.
Context {K V : Type} (comparator : K -> K -> Z)
        (default_key : K) (default_value : V).
Import BPlusTreeLeafPage.

Local Abbreviation key_of := (leaf_key default_key default_value).
Local Abbreviation ascending :=
  (leaf_ascending comparator default_key default_value).
Local Abbreviation has_key :=
  (leaf_has_key comparator default_key default_value).
Local Abbreviation item_at := (at_ default_key default_value).
Local Abbreviation dummy := (dummy_item default_key default_value).
Local Abbreviation key_index :=
  (KeyIndex comparator default_key default_value).
Local Abbreviation lookup_key :=
  (Lookup comparator default_key default_value).
Local Abbreviation insert :=
  (Insert comparator default_key default_value).
Local Abbreviation remove :=
  (RemoveAndDeleteRecord comparator default_key default_value).

(** Two pages whose first [size] slots agree hold the same entries. *)
Lemma entries_agree (n n' : @t K V) :
  GetSize n' = GetSize n ->
  0 <= GetSize n <= Z.of_nat (length (array n)) ->
  length (array n') = length (array n) ->
  (forall j, 0 <= j < GetSize n -> item_at n' j = item_at n j) ->
  entries n' = entries n.
Proof.
  intros Hsz Hfit Hlen Hget. unfold entries. rewrite Hsz.
  apply (take_slots dummy).
  - rewrite length_take. lia.
  - lia.
  - intros i Hi. rewrite lookup_take_lt by lia.
    rewrite (array_get_lookup dummy) by lia. f_equal.
    symmetry. apply Hget. lia.
Qed.

(** What [Insert] does, slot by slot, when the key is absent and the
    page has room. *)
Lemma Insert_absent_slots (n : t) (key : K) (value : V) :
  ComparatorLaws comparator -> leaf_fits n -> ascending n ->
  ~ has_key n key -> GetSize n < GetMaxSize n ->
  let index := key_index n key in
  let n' := (insert key value n).2 in
  (insert key value n).1 = GetSize n + 1 /\
  GetSize n' = GetSize n + 1 /\
  length (array n') = length (array n) /\
  header n' = BPlusTreePage.SetSize (GetSize n + 1) (header n) /\
  next_page_id_ n' = next_page_id_ n /\
  0 <= index <= GetSize n /\
  (forall i, 0 <= i < index -> comparator (key_of n i) key < 0) /\
  (forall i, index <= i < GetSize n -> comparator key (key_of n i) < 0) /\
  (forall j, item_at n' j
             = if j =? index then (key, value)
               else if (index <? j) && (j <=? GetSize n)
                    then item_at n (j - 1) else item_at n j).
Proof.
  intros laws [Hsize Hmax] Hasc Hno Hroom index n'.
  pose proof (Insert_duplicate_test comparator default_key default_value
                n key laws Hasc ltac:(lia)) as Hdup.
  destruct (KeyIndex_spec comparator default_key default_value n key
              laws Hasc ltac:(lia)) as (Hr & Hlow & Hhigh).
  simpl in Hdup, Hr, Hlow, Hhigh. fold index in Hdup, Hr, Hlow, Hhigh.
  assert (Hgt : forall i, index <= i < GetSize n ->
                          comparator key (key_of n i) < 0).
  { intros i Hi. apply (comparator_flip _ laws).
    specialize (Hhigh i Hi).
    destruct (Z.eq_dec (comparator (key_of n i) key) 0) as [E|E]; [| lia].
    exfalso. apply Hno. exists i. split; [lia | exact E]. }
  unfold n', Insert. fold index. fold (key_of n index).
  destruct ((index <? GetSize n) && (comparator (key_of n index) key =? 0))
    eqn:Etest.
  { exfalso. apply Hno, Hdup. reflexivity. }
  destruct (Z.geb_spec (GetSize n) (GetMaxSize n)); [lia |].
  destruct (shift_right_spec dummy _ (GetSize n) index (array n) eq_refl)
    as [Hlen Hget]; try lia.
  simpl. repeat split; try assumption; try lia.
  - rewrite length_array_set. exact Hlen.
  - intros j. unfold at_. simpl.
    destruct (Z.eqb_spec j index) as [->|Hne].
    + apply array_get_set_eq. lia.
    + rewrite array_get_set_ne by lia. apply Hget.
Qed.

Lemma Insert_absent_ascending (n : t) (key : K) (value : V) :
  ComparatorLaws comparator -> leaf_fits n -> ascending n ->
  ~ has_key n key -> GetSize n < GetMaxSize n ->
  ascending (insert key value n).2.
Proof.
  intros laws Hfits Hasc Hno Hroom.
  destruct (Insert_absent_slots n key value laws Hfits Hasc Hno Hroom)
    as (_ & Hsz & _ & _ & _ & Hidx & Hlow & Hgt & Hget).
  intros i j Hi Hij Hj. rewrite Hsz in Hj.
  unfold leaf_key. rewrite !Hget.
  fold (key_of n i) (key_of n j) (key_of n (i - 1)) (key_of n (j - 1)).
  set (index := key_index n key) in *.
  destruct (Z.eqb_spec i index), (Z.eqb_spec j index),
    (Z.ltb_spec index i), (Z.ltb_spec index j),
    (Z.leb_spec i (GetSize n)), (Z.leb_spec j (GetSize n));
    simpl; try lia.
  - apply Hgt. lia.
  - apply Hlow. lia.
  - apply Hasc; lia.
  - apply Hasc; lia.
  - apply Hasc; lia.
Qed.

(** X9.  Insert, then look up.  On a sorted leaf, after [Insert] of a key
    that was absent into a page with room, [Lookup] of that key returns
    the inserted value; after [Insert] of a key that entry [i] already
    holds, [Lookup] still returns the value of entry [i]. *)
Theorem Insert_then_Lookup (n : t) (key : K) (value : V) :
  ComparatorLaws comparator -> leaf_fits n -> ascending n ->
  (~ has_key n key -> GetSize n < GetMaxSize n ->
   comparator key key = 0 ->
   lookup_key (insert key value n).2 key false = (true, Some value)) /\
  (forall i, 0 <= i < GetSize n -> comparator (key_of n i) key = 0 ->
   lookup_key (insert key value n).2 key false
   = (true, Some (item_at n i).2)).
Proof.
  intros laws Hfits Hasc. split.
  - intros Hno Hroom Hrefl.
    destruct (Insert_absent_slots n key value laws Hfits Hasc Hno Hroom)
      as (_ & Hsz & _ & _ & _ & Hidx & _ & _ & Hget).
    pose proof (Insert_absent_ascending n key value laws Hfits Hasc Hno Hroom)
      as Hasc'.
    set (index := key_index n key) in *.
    rewrite (Lookup_sorted_entry comparator default_key default_value
               _ key index laws Hasc').
    + rewrite Hget, Z.eqb_refl. reflexivity.
    + lia.
    + unfold leaf_key. rewrite Hget, Z.eqb_refl. exact Hrefl.
  - intros i Hi Heq.
    assert (Hsame : (insert key value n).2 = n).
    { pose proof (Insert_duplicate_test comparator default_key default_value
                    n key laws Hasc ltac:(lia)) as Hdup.
      simpl in Hdup. unfold Insert.
      replace ((key_index n key <? GetSize n)
               && (comparator (item_at n (key_index n key)).1 key =? 0))
        with true; [reflexivity |].
      symmetry. apply Hdup. exists i. split; [lia | exact Heq]. }
    rewrite Hsame.
    apply (Lookup_sorted_entry comparator default_key default_value
             n key i laws Hasc Hi Heq).
Qed.

(** What [RemoveAndDeleteRecord] does, slot by slot, when entry [i] holds
    the key. *)
Lemma Remove_present_slots (n : t) (key : K) (i : Z) :
  ComparatorLaws comparator -> ascending n ->
  GetSize n <= Z.of_nat (length (array n)) ->
  0 <= i < GetSize n -> comparator (key_of n i) key = 0 ->
  let n' := (remove key n).2 in
  (remove key n).1 = GetSize n - 1 /\
  GetSize n' = GetSize n - 1 /\
  length (array n') = length (array n) /\
  header n' = BPlusTreePage.SetSize (GetSize n + -1) (header n) /\
  next_page_id_ n' = next_page_id_ n /\
  (forall j, 0 <= j < GetSize n - 1 ->
             item_at n' j = if j <? i then item_at n j else item_at n (j + 1)).
Proof.
  intros laws Hasc Hcap Hi Heq n'.
  pose proof (Insert_duplicate_test comparator default_key default_value
                n key laws Hasc ltac:(lia)) as Hdup.
  pose proof (KeyIndex_nonneg comparator default_key default_value n key)
    as Hnn.
  simpl in Hdup.
  assert (Htest : (key_index n key <? GetSize n)
                  && (comparator (key_of n (key_index n key)) key =? 0)
                  = true).
  { apply Hdup. exists i. split; [lia | exact Heq]. }
  apply andb_true_iff in Htest as [Hlt Hidx].
  apply Z.ltb_lt in Hlt. apply Z.eqb_eq in Hidx.
  assert (Hindex : key_index n key = i).
  { destruct (Z.lt_trichotomy (key_index n key) i) as [H|[H|H]];
      [| exact H |]; exfalso.
    - assert (comparator (key_of n (key_index n key)) key < 0); [| lia].
      apply (comparator_equal_r _ laws) with (b := key_of n i);
        [apply Hasc; lia | exact Heq].
    - assert (comparator (key_of n i) key < 0); [| lia].
      apply (comparator_equal_r _ laws)
        with (b := key_of n (key_index n key));
        [apply Hasc; lia | exact Hidx]. }
  unfold n', RemoveAndDeleteRecord. rewrite Hindex.
  fold (key_of n i). rewrite Heq.
  destruct (Z.geb_spec i (GetSize n)); [lia |]. simpl.
  destruct (shift_left_spec dummy _ i (GetSize n - 1) (array n) eq_refl)
    as [Hlen Hget]; try lia.
  repeat split; try assumption; try lia.
  intros j Hj. unfold at_. simpl. rewrite Hget.
  destruct (Z.leb_spec i j), (Z.ltb_spec j i), (Z.ltb_spec j (GetSize n - 1));
    simpl; try reflexivity; lia.
Qed.

(** X10.  [RemoveAndDeleteRecord] on a sorted leaf.  When no entry holds
    the key, the page stays as it is and the old size is returned.  When
    entry [i] holds it, the size returned is one less, the entries are
    the old ones without entry [i], they are still strictly ascending,
    and no entry holds the key any more. *)
Theorem RemoveAndDeleteRecord_on_sorted_leaf (n : t) (key : K) :
  ComparatorLaws comparator -> ascending n ->
  0 <= GetSize n <= Z.of_nat (length (array n)) ->
  (~ has_key n key -> remove key n = (GetSize n, n)) /\
  (forall i, 0 <= i < GetSize n -> comparator (key_of n i) key = 0 ->
     (remove key n).1 = GetSize n - 1 /\
     GetSize (remove key n).2 = GetSize n - 1 /\
     entries (remove key n).2
     = take (Z.to_nat i) (entries n) ++ drop (S (Z.to_nat i)) (entries n) /\
     ascending (remove key n).2 /\
     ~ has_key (remove key n).2 key).
Proof.
  intros laws Hasc Hfit. split.
  - intros Hno.
    pose proof (Insert_duplicate_test comparator default_key default_value
                  n key laws Hasc ltac:(lia)) as Hdup.
    simpl in Hdup. unfold RemoveAndDeleteRecord.
    fold (key_index n key). fold (key_of n (key_index n key)).
    destruct (Z.geb_spec (key_index n key) (GetSize n)); [reflexivity |].
    destruct (Z.eqb_spec (comparator (key_of n (key_index n key)) key) 0)
      as [E|E]; [| reflexivity].
    exfalso. apply Hno, Hdup.
    apply andb_true_iff. split; [apply Z.ltb_lt; lia | reflexivity].
  - intros i Hi Heq.
    destruct (Remove_present_slots n key i laws Hasc ltac:(lia) Hi Heq)
      as (Hret & Hsz & Hlen & _ & _ & Hget).
    assert (Hkey : forall j, 0 <= j < GetSize n - 1 ->
              key_of (remove key n).2 j
              = if j <? i then key_of n j else key_of n (j + 1)).
    { intros j Hj. unfold leaf_key. rewrite Hget by lia.
      destruct (j <? i); reflexivity. }
    split; [exact Hret |]. split; [exact Hsz |]. split; [| split].
    + unfold entries. rewrite Hsz.
      apply (take_removed dummy); try lia; try assumption.
    + intros j k Hj Hjk Hk. rewrite Hsz in Hk.
      rewrite !Hkey by lia.
      destruct (Z.ltb_spec j i), (Z.ltb_spec k i); try lia;
        apply Hasc; lia.
    + intros (j & Hj & Hjeq). rewrite Hsz in Hj.
      rewrite Hkey in Hjeq by lia.
      destruct (Z.ltb_spec j i).
      * assert (comparator (key_of n j) key < 0); [| lia].
        apply (comparator_equal_r _ laws) with (b := key_of n i);
          [apply Hasc; lia | exact Heq].
      * assert (comparator (key_of n i) key < 0); [| lia].
        apply (comparator_equal_r _ laws) with (b := key_of n (j + 1));
          [apply Hasc; lia | exact Hjeq].
Qed.

(** X11.  Insert, then remove.  On a sorted leaf with room, inserting an
    absent key and removing it again gives back the old size, the old
    header and link, and the old entries. *)
Theorem Insert_then_Remove_restores (n : t) (key : K) (value : V) :
  ComparatorLaws comparator -> leaf_fits n -> ascending n ->
  ~ has_key n key -> GetSize n < GetMaxSize n ->
  comparator key key = 0 ->
  let n' := (remove key (insert key value n).2).2 in
  (remove key (insert key value n).2).1 = GetSize n /\
  entries n' = entries n /\
  header n' = header n /\
  next_page_id_ n' = next_page_id_ n.
Proof.
  intros laws Hfits Hasc Hno Hroom Hrefl n'.
  destruct (Insert_absent_slots n key value laws Hfits Hasc Hno Hroom)
    as (_ & Hsz & Hlen & Hhdr & Hnext & Hidx & _ & _ & Hget).
  pose proof (Insert_absent_ascending n key value laws Hfits Hasc Hno Hroom)
    as Hasc'.
  destruct Hfits as [Hsize Hmax].
  set (index := key_index n key) in *.
  set (n1 := (insert key value n).2) in *.
  assert (Hk : comparator (key_of n1 index) key = 0).
  { unfold leaf_key. rewrite Hget, Z.eqb_refl. exact Hrefl. }
  destruct (Remove_present_slots n1 key index laws Hasc'
              ltac:(lia) ltac:(lia) Hk)
    as (Hret & Hsz' & Hlen' & Hhdr' & Hnext' & Hget').
  fold n' in Hsz', Hlen', Hhdr', Hnext', Hget'.
  split; [lia |]. split; [| split].
  - apply entries_agree; try lia.
    intros j Hj. rewrite Hget' by lia. rewrite !Hget.
    destruct (Z.ltb_spec j index), (Z.eqb_spec j index),
      (Z.eqb_spec (j + 1) index), (Z.ltb_spec index j),
      (Z.ltb_spec index (j + 1)), (Z.leb_spec j (GetSize n)),
      (Z.leb_spec (j + 1) (GetSize n)); simpl; try lia;
      try reflexivity; f_equal; lia.
  - rewrite Hhdr', Hsz, Hhdr. unfold GetSize. destruct (header n).
    unfold BPlusTreePage.SetSize. simpl. f_equal. lia.
  - congruence.
Qed.

End LeafUpdateFacts.

Lemma sample_leaf_fits : leaf_fits sample_leaf.
Proof. unfold leaf_fits. cbn. lia. Qed.

Lemma sample_leaf_lacks_6 : ~ leaf_has_key int_comparator 0 0 sample_leaf 6.
Proof.
  intros (i & Hi & Heq). change (0 <= i < 3) in Hi.
  assert (H : i = 0 \/ i = 1 \/ i = 2) by lia.
  destruct H as [-> | [-> | ->]]; discriminate Heq.
Qed.

Lemma Insert_then_Lookup_witness :
  BPlusTreeLeafPage.Lookup int_comparator 0 0
    (BPlusTreeLeafPage.Insert int_comparator 0 0 6 60 sample_leaf).2 6 false
  = (true, Some 60).
Proof.
  apply (Insert_then_Lookup int_comparator 0 0 sample_leaf 6 60
           int_comparator_laws sample_leaf_fits sample_leaf_ascending).
  - exact sample_leaf_lacks_6.
  - cbn. lia.
  - reflexivity.
Defined.

Lemma RemoveAndDeleteRecord_on_sorted_leaf_witness :
  (BPlusTreeLeafPage.RemoveAndDeleteRecord int_comparator 0 0 5
     sample_leaf).1 = 2 /\
  BPlusTreeLeafPage.entries
    (BPlusTreeLeafPage.RemoveAndDeleteRecord int_comparator 0 0 5
       sample_leaf).2
  = [(1, 10); (9, 90)].
Proof.
  destruct (RemoveAndDeleteRecord_on_sorted_leaf int_comparator 0 0
              sample_leaf 5 int_comparator_laws sample_leaf_ascending)
    as [_ Hpresent].
  - cbn. lia.
  - destruct (Hpresent 1) as (H1 & _ & H3 & _).
    + cbn. lia.
    + reflexivity.
    + split; [exact H1 | exact H3].
Defined.

Lemma Insert_then_Remove_restores_witness :
  BPlusTreeLeafPage.entries
    (BPlusTreeLeafPage.RemoveAndDeleteRecord int_comparator 0 0 6
       (BPlusTreeLeafPage.Insert int_comparator 0 0 6 60 sample_leaf).2).2
  = BPlusTreeLeafPage.entries sample_leaf.
Proof.
  apply (Insert_then_Remove_restores int_comparator 0 0 sample_leaf 6 60
           int_comparator_laws sample_leaf_fits sample_leaf_ascending
           sample_leaf_lacks_6).
  - cbn. lia.
  - reflexivity.
Defined.

(** ** More on leaf pages: splitting, merging, rotating *)

Section LeafSplitMergeFacts.
Context {K V : Type} (default_key : K) (default_value : V).
Import BPlusTreeLeafPage.

Local Abbreviation item_at := (at_ default_key default_value).
Local Abbreviation dummy := (dummy_item default_key default_value).

Lemma take_set_last (a : list (K * V)) (size : Z) (x : K * V) :
  0 <= size < Z.of_nat (length a) ->
  take (Z.to_nat (size + 1)) (array_set a size x)
  = take (Z.to_nat size) a ++ [x].
Proof.
  intros Hsize. unfold array_set.
  destruct (Z.ltb_spec size 0); [lia |].
  replace (Z.to_nat (size + 1)) with (S (Z.to_nat size)) by lia.
  rewrite (take_S_r _ _ x) by (apply list_lookup_insert_eq; lia).
  now rewrite take_insert_ge by lia.
Qed.

(** X12.  [MoveHalfTo] splits a leaf: the source keeps the first
    [size - size / 2] entries, the recipient holds exactly the last
    [size / 2] entries of the source, in order, whatever it held before;
    the source keeps at most one entry more than it gives away.  The
    links of both pages are left as they were. *)
Theorem MoveHalfTo_splits_entries (this recipient : t) :
  0 <= GetSize this <= Z.of_nat (length (array this)) ->
  GetSize this / 2 <= Z.of_nat (length (array recipient)) ->
  let moved := MoveHalfTo default_key default_value this recipient in
  let kept := GetSize this - GetSize this / 2 in
  GetSize moved.1 = kept /\
  GetSize moved.2 = GetSize this / 2 /\
  GetSize moved.2 <= GetSize moved.1 <= GetSize moved.2 + 1 /\
  entries moved.1 = take (Z.to_nat kept) (entries this) /\
  entries moved.2 = drop (Z.to_nat kept) (entries this) /\
  entries moved.1 ++ entries moved.2 = entries this /\
  next_page_id_ moved.1 = next_page_id_ this /\
  next_page_id_ moved.2 = next_page_id_ recipient.
Proof.
  intros Hthis Hrec moved kept.
  assert (Hq : Z.quot (GetSize this) 2 = GetSize this / 2)
    by (apply Z.quot_div_nonneg; lia).
  assert (Hhalf : 0 <= GetSize this / 2 /\ 2 * (GetSize this / 2) <= GetSize this
                  /\ GetSize this < 2 * (GetSize this / 2) + 2).
  { pose proof (Z.div_mod (GetSize this) 2 ltac:(lia)).
    pose proof (Z.mod_pos_bound (GetSize this) 2 ltac:(lia)). lia. }
  unfold moved, MoveHalfTo. rewrite Hq. fold kept.
  destruct (copy_loop_spec dummy (fun i => i) 0
              (fun i => item_at this (kept + i)) _ (fun i => eq_refl)
              0 (GetSize this / 2) (array recipient) eq_refl)
    as [Hlen Hget]; try lia.
  simpl in Hlen, Hget.
  set (a := for_up 0 (GetSize this / 2)
              (fun i a => array_set a i (item_at this (kept + i)))
              (array recipient)) in *.
  assert (E1 : entries (SetSize kept this)
               = take (Z.to_nat kept) (entries this)).
  { unfold entries.
    replace (GetSize (SetSize kept this)) with kept by reflexivity.
    simpl. rewrite take_take. f_equal. unfold kept. lia. }
  assert (E2 : entries (SetSize (GetSize this / 2) (set_array a recipient))
               = drop (Z.to_nat kept) (entries this)).
  { unfold entries. simpl.
    replace (GetSize (SetSize (GetSize this / 2) (set_array a recipient)))
      with (GetSize this / 2) by reflexivity.
    apply (take_slots dummy).
    - rewrite length_drop, length_take. unfold kept. lia.
    - lia.
    - intros i Hi. rewrite Hget.
      destruct (Z.leb_spec (0 + 0) (Z.of_nat i)),
        (Z.ltb_spec (Z.of_nat i) (0 + GetSize this / 2)); simpl; try lia.
      rewrite lookup_drop, lookup_take_lt by (unfold kept; lia).
      replace (kept + (Z.of_nat i - 0))
        with (Z.of_nat (Z.to_nat kept + i)) by (unfold kept; lia).
      apply array_get_lookup. unfold kept. lia. }
  simpl. rewrite E1, E2.
  change (GetSize (SetSize kept this)) with kept.
  change (GetSize (SetSize (GetSize this / 2) (set_array a recipient)))
    with (GetSize this / 2).
  split; [reflexivity |]. split; [reflexivity |].
  split; [unfold kept; lia |].
  split; [reflexivity |]. split; [reflexivity |].
  split; [apply take_drop |]. split; reflexivity.
Qed.

(** X13.  [MoveAllTo] merges a leaf into its recipient: the recipient's
    entries are followed by all entries of the source, the recipient
    takes over the source's link to the next leaf, and the source is left
    empty.  No test of [max_size] is made. *)
Theorem MoveAllTo_appends_entries (this recipient : t) :
  0 <= GetSize this <= Z.of_nat (length (array this)) ->
  0 <= GetSize recipient ->
  GetSize recipient + GetSize this <= Z.of_nat (length (array recipient)) ->
  let moved := MoveAllTo default_key default_value this recipient in
  entries moved.2 = entries recipient ++ entries this /\
  GetSize moved.2 = GetSize recipient + GetSize this /\
  next_page_id_ moved.2 = next_page_id_ this /\
  GetSize moved.1 = 0 /\
  entries moved.1 = [].
Proof.
  intros Hthis Hrec Hcap moved.
  unfold moved, MoveAllTo, CopyNFrom.
  destruct (copy_loop_spec dummy (fun i => GetSize recipient + i)
              (GetSize recipient)
              (fun i => array_get dummy (array this) i) _
              (fun i => eq_refl)
              0 (GetSize this) (array recipient) eq_refl)
    as [Hlen Hget]; try lia.
  simpl in Hlen, Hget.
  set (a := for_up 0 (GetSize this)
              (fun i a =>
                 array_set a (GetSize recipient + i)
                   (array_get dummy (array this) i))
              (array recipient)) in *.
  simpl. repeat split.
  unfold entries. simpl.
  replace (GetSize (SetNextPageId (GetNextPageId this)
             (SetSize (GetSize recipient + GetSize this)
                (set_array a recipient))))
    with (GetSize recipient + GetSize this) by reflexivity.
  apply (take_appended dummy); try lia; try assumption.
  intros j Hj. rewrite Hget.
  destruct (Z.leb_spec (GetSize recipient + 0) j),
    (Z.ltb_spec j (GetSize recipient + GetSize this)),
    (Z.ltb_spec j (GetSize recipient)); simpl; try reflexivity; lia.
Qed.

(** X14.  [MoveFirstToEndOf] into a leaf with room: the first entry of
    the source becomes the last entry of the recipient, and the source
    keeps its other entries. *)
Theorem MoveFirstToEndOf_moves_first_entry (this recipient : t) :
  0 < GetSize this <= Z.of_nat (length (array this)) ->
  0 <= GetSize recipient < GetMaxSize recipient ->
  GetSize recipient < Z.of_nat (length (array recipient)) ->
  let moved := MoveFirstToEndOf default_key default_value this recipient in
  entries moved.1 = drop 1 (entries this) /\
  entries moved.2 = entries recipient ++ [item_at this 0] /\
  GetSize moved.1 = GetSize this - 1 /\
  GetSize moved.2 = GetSize recipient + 1.
Proof.
  intros Hthis Hroom Hcap moved.
  unfold moved, MoveFirstToEndOf, CopyLastFrom.
  destruct (Z.eqb_spec (GetSize this) 0); [lia |].
  destruct (Z.geb_spec (GetSize recipient) (GetMaxSize recipient)); [lia |].
  simpl.
  destruct (shift_left_spec dummy _ 0 (GetSize this - 1) (array this)
              eq_refl) as [Hlen Hget]; try lia.
  repeat split; try (unfold GetSize; simpl; lia).
  - unfold entries.
    replace (GetSize (IncreaseSize (-1) (set_array
               (shift_left dummy 0 (GetSize this - 1) (array this)) this)))
      with (GetSize this - 1) by (unfold GetSize; simpl; lia).
    simpl. apply (take_shifted_left dummy); try lia; try assumption.
    intros j Hj. rewrite Hget.
    destruct (Z.leb_spec 0 j), (Z.ltb_spec j (GetSize this - 1));
      simpl; try reflexivity; lia.
  - unfold entries.
    replace (GetSize (IncreaseSize 1 (set_array
               (array_set (array recipient) (GetSize recipient)
                  (item_at this 0)) recipient)))
      with (GetSize recipient + 1) by reflexivity.
    apply take_set_last. split; [lia | exact Hcap].
Qed.

(** X15.  [MoveLastToFrontOf] into a leaf with room: the last entry of
    the source becomes the first entry of the recipient, and the source
    keeps its other entries. *)
Theorem MoveLastToFrontOf_moves_last_entry (this recipient : t) :
  0 < GetSize this <= Z.of_nat (length (array this)) ->
  0 <= GetSize recipient < GetMaxSize recipient ->
  GetSize recipient < Z.of_nat (length (array recipient)) ->
  let moved := MoveLastToFrontOf default_key default_value this recipient in
  entries moved.1 = take (Z.to_nat (GetSize this - 1)) (entries this) /\
  entries moved.2 = item_at this (GetSize this - 1) :: entries recipient /\
  GetSize moved.1 = GetSize this - 1 /\
  GetSize moved.2 = GetSize recipient + 1.
Proof.
  intros Hthis Hroom Hcap moved.
  unfold moved, MoveLastToFrontOf, CopyFirstFrom.
  destruct (Z.eqb_spec (GetSize this) 0); [lia |].
  destruct (Z.geb_spec (GetSize recipient) (GetMaxSize recipient)); [lia |].
  simpl.
  destruct (shift_right_spec dummy _ (GetSize recipient) 0 (array recipient)
              eq_refl) as [Hlen Hget]; try lia.
  repeat split; try (unfold GetSize; simpl; lia).
  - unfold entries.
    replace (GetSize (IncreaseSize (-1) this)) with (GetSize this - 1)
      by (unfold GetSize; simpl; lia).
    simpl. rewrite take_take. f_equal. lia.
  - unfold entries.
    set (a := shift_right dummy (GetSize recipient) 0 (array recipient)) in *.
    replace (GetSize (IncreaseSize 1 (set_array
               (array_set a 0 (item_at this (GetSize this - 1))) recipient)))
      with (GetSize recipient + 1) by reflexivity.
    simpl.
    rewrite (take_inserted dummy (array recipient) _ (GetSize recipient) 0
               (item_at this (GetSize this - 1))); try lia.
    + reflexivity.
    + now rewrite length_array_set.
    + intros j. destruct (Z.eqb_spec j 0) as [->|Hne].
      * apply array_get_set_eq. lia.
      * rewrite array_get_set_ne by lia. apply Hget.
Qed.

End LeafSplitMergeFacts.

Lemma MoveHalfTo_splits_entries_witness :
  let moved := BPlusTreeLeafPage.MoveHalfTo 0 0 sample_leaf roomy_leaf in
  BPlusTreeLeafPage.entries moved.1 = [(1, 10); (5, 50)] /\
  BPlusTreeLeafPage.entries moved.2 = [(9, 90)].
Proof.
  destruct (MoveHalfTo_splits_entries 0 0 sample_leaf roomy_leaf)
    as (_ & _ & _ & H1 & H2 & _).
  - cbn. lia.
  - vm_compute. discriminate.
  - split; [exact H1 | exact H2].
Defined.

Lemma MoveAllTo_appends_entries_witness :
  let moved := BPlusTreeLeafPage.MoveAllTo 0 0 sample_leaf roomy_leaf in
  BPlusTreeLeafPage.entries moved.2
  = [(100, 1000); (1, 10); (5, 50); (9, 90)] /\
  BPlusTreeLeafPage.next_page_id_ moved.2 = INVALID_PAGE_ID.
Proof.
  destruct (MoveAllTo_appends_entries 0 0 sample_leaf roomy_leaf)
    as (H1 & _ & H3 & _).
  - cbn. lia.
  - cbn. lia.
  - cbn. lia.
  - split; [exact H1 | exact H3].
Defined.

Lemma MoveFirstToEndOf_moves_first_entry_witness :
  let moved :=
    BPlusTreeLeafPage.MoveFirstToEndOf 0 0 sample_leaf roomy_leaf in
  BPlusTreeLeafPage.entries moved.1 = [(5, 50); (9, 90)] /\
  BPlusTreeLeafPage.entries moved.2 = [(100, 1000); (1, 10)].
Proof.
  destruct (MoveFirstToEndOf_moves_first_entry 0 0 sample_leaf roomy_leaf)
    as (H1 & H2 & _).
  - cbn. lia.
  - cbn. lia.
  - cbn. lia.
  - split; [exact H1 | exact H2].
Defined.

Lemma MoveLastToFrontOf_moves_last_entry_witness :
  let moved :=
    BPlusTreeLeafPage.MoveLastToFrontOf 0 0 sample_leaf roomy_leaf in
  BPlusTreeLeafPage.entries moved.1 = [(1, 10); (5, 50)] /\
  BPlusTreeLeafPage.entries moved.2 = [(9, 90); (100, 1000)].
Proof.
  destruct (MoveLastToFrontOf_moves_last_entry 0 0 sample_leaf roomy_leaf)
    as (H1 & H2 & _).
  - cbn. lia.
  - cbn. lia.
  - cbn. lia.
  - split; [exact H1 | exact H2].
Defined.

(** ** More on internal pages *)

(** One turn of the loop of [std::lower_bound]. *)
Lemma lower_bound_step {K : Type} (comparator : K -> K -> Z)
    (default_key : K) (n : BPlusTreeInternalPage.t) (key : K)
    (first len : Z) :
  BPlusTreeInternalPage.lower_bound comparator default_key n key first len
  = if decide (0 < len)
    then if comparator (internal_key default_key n (first + len / 2)) key <? 0
         then BPlusTreeInternalPage.lower_bound comparator default_key n key
                (first + len / 2 + 1) (len - len / 2 - 1)
         else BPlusTreeInternalPage.lower_bound comparator default_key n key
                first (len / 2)
    else first.
Proof. apply lower_bound_unfold. Qed.

Section InternalUpdateFacts.
Context {K : Type} (comparator : K -> K -> Z) (default_key : K).
Import BPlusTreeInternalPage.

Local Abbreviation item_at := (at_ default_key).
Local Abbreviation dflt := (default_key, INVALID_PAGE_ID).
Local Abbreviation value_index := (ValueIndex default_key).
Local Abbreviation insert_after := (InsertNodeAfter default_key).

Lemma ValueIndex_spec (n : @t K) (value : page_id_t) :
  (value_index n value = -1 /\
   forall i, 0 <= i < GetSize n -> (item_at n i).2 <> value) \/
  (0 <= value_index n value < GetSize n /\
   (item_at n (value_index n value)).2 = value /\
   forall i, 0 <= i < value_index n value -> (item_at n i).2 <> value).
Proof.
  unfold ValueIndex.
  pose proof (first_index_spec (fun i => (item_at n i).2 =? value)
                _ 0 (GetSize n) eq_refl) as Hfind.
  destruct (first_index 0 (GetSize n) (fun i => (item_at n i).2 =? value))
    as [r|].
  - right. destruct Hfind as (Hr & Hp & Hbefore).
    split; [lia |]. split; [now apply Z.eqb_eq in Hp |].
    intros i Hi. specialize (Hbefore i ltac:(lia)). simpl in Hbefore.
    now apply Z.eqb_neq in Hbefore.
  - left. split; [reflexivity |].
    intros i Hi. specialize (Hfind i Hi). simpl in Hfind.
    now apply Z.eqb_neq in Hfind.
Qed.

(** X16.  [ValueIndex] returns the first index in [0, size) whose value
    equals the value sought, and -1 exactly when no entry has it. *)
Theorem ValueIndex_first_match (n : @t K) (value : page_id_t) :
  (value_index n value = -1 /\
   forall i, 0 <= i < GetSize n -> (item_at n i).2 <> value) \/
  (0 <= value_index n value < GetSize n /\
   (item_at n (value_index n value)).2 = value /\
   forall i, 0 <= i < value_index n value -> (item_at n i).2 <> value).
Proof. apply ValueIndex_spec. Qed.

(** X17.  A root made by [PopulateNewRoot] has two children, and
    [Lookup] routes every key that is not smaller than the new key to the
    new child and every smaller key to the old one. *)
Theorem PopulateNewRoot_then_Lookup
    (n : @t K) (old_value : page_id_t) (new_key : K) (new_value : page_id_t)
    (key : K) :
  (2 <= length (array n))%nat ->
  let root := PopulateNewRoot default_key old_value new_key new_value n in
  GetSize root = 2 /\
  ValueAt default_key root 0 = Returned old_value /\
  KeyAt default_key root 1 = Returned new_key /\
  ValueAt default_key root 1 = Returned new_value /\
  Lookup comparator default_key root key
  = Returned (if comparator new_key key <=? 0 then new_value else old_value).
Proof.
  intros Hcap root.
  assert (H0 : item_at root 0 = ((item_at n 0).1, old_value)).
  { unfold root, PopulateNewRoot, at_. simpl.
    rewrite array_get_set_ne by lia. apply array_get_set_eq. lia. }
  assert (H1 : item_at root 1 = (new_key, new_value)).
  { unfold root, PopulateNewRoot, at_. simpl.
    apply array_get_set_eq. rewrite length_array_set. lia. }
  assert (Hsz : GetSize root = 2) by reflexivity.
  split; [exact Hsz |].
  split; [unfold ValueAt, out_of_range; rewrite Hsz, H0; reflexivity |].
  split; [unfold KeyAt, out_of_range; rewrite Hsz, H1; reflexivity |].
  split; [unfold ValueAt, out_of_range; rewrite Hsz, H1; reflexivity |].
  unfold Lookup. rewrite Hsz.
  rewrite lower_bound_step. change (2 - 1) with 1.
  destruct (decide (0 < 1)) as [_|H]; [| lia].
  change (1 + 1 / 2) with 1. change (1 - 1 / 2 - 1) with 0.
  change (1 / 2) with 0.
  unfold internal_key. rewrite H1. simpl fst.
  destruct (Z.ltb_spec (comparator new_key key) 0) as [Hlt|Hge].
  - rewrite lower_bound_step.
    destruct (decide (0 < 0)) as [H|_]; [lia |].
    change (1 + 1 =? 2) with true. cbv iota.
    unfold ValueAt, out_of_range. rewrite Hsz. change (2 - 1) with 1.
    rewrite H1. simpl.
    destruct (Z.leb_spec (comparator new_key key) 0); [reflexivity | lia].
  - rewrite lower_bound_step.
    destruct (decide (0 < 0)) as [H|_]; [lia |].
    change (1 =? 2) with false. cbv iota.
    rewrite H1. simpl fst. simpl snd. change (1 - 1) with 0. rewrite H0.
    simpl snd.
    destruct (Z.eqb_spec (comparator new_key key) 0) as [E|E],
      (Z.leb_spec (comparator new_key key) 0); try reflexivity; lia.
Qed.

(** What [InsertNodeAfter] does, slot by slot. *)
Lemma InsertNodeAfter_slots
    (n : @t K) (old_value : page_id_t) (new_key : K) (new_value : page_id_t) :
  0 <= GetSize n < Z.of_nat (length (array n)) ->
  let idx := value_index n old_value + 1 in
  let n' := (insert_after old_value new_key new_value n).2 in
  0 <= idx <= GetSize n /\
  (insert_after old_value new_key new_value n).1 = GetSize n + 1 /\
  GetSize n' = GetSize n + 1 /\
  length (array n') = length (array n) /\
  (forall j, item_at n' j
             = if j =? idx then (new_key, new_value)
               else if (idx <? j) && (j <=? GetSize n)
                    then item_at n (j - 1) else item_at n j).
Proof.
  intros Hsize idx n'. unfold MappingType in *.
  assert (Hidx : 0 <= idx <= GetSize n).
  { unfold idx. destruct (ValueIndex_spec n old_value) as [[-> _]|[H _]]; lia. }
  split; [exact Hidx |].
  unfold n', InsertNodeAfter. fold idx.
  destruct (shift_right_spec dflt _ (GetSize n) idx (array n) eq_refl
              (proj1 Hidx) (proj2 Hsize)) as [Hlen Hget].
  split; [reflexivity |]. split; [reflexivity |]. split.
  - cbn [snd array set_array IncreaseSize].
    rewrite length_array_set. exact Hlen.
  - intros j. unfold at_. cbn [snd array set_array IncreaseSize].
    destruct (Z.eqb_spec j idx) as [->|Hne].
    + apply array_get_set_eq. lia.
    + rewrite array_get_set_ne by lia. apply Hget.
Qed.

(** X18.  [InsertNodeAfter] puts the new pair right after the first entry
    whose value is [old_value] and moves the later entries one place up;
    when no entry has that value, the new pair becomes entry 0.  The size
    grows by one in both cases, and no test of [max_size] is made. *)
Theorem InsertNodeAfter_places_pair
    (n : @t K) (old_value : page_id_t) (new_key : K) (new_value : page_id_t) :
  0 <= GetSize n < Z.of_nat (length (array n)) ->
  let idx := value_index n old_value + 1 in
  let result := insert_after old_value new_key new_value n in
  result.1 = GetSize n + 1 /\
  GetSize result.2 = GetSize n + 1 /\
  entries result.2
  = take (Z.to_nat idx) (entries n)
    ++ (new_key, new_value) :: drop (Z.to_nat idx) (entries n) /\
  ((forall i, 0 <= i < GetSize n -> (item_at n i).2 <> old_value) ->
   entries result.2 = (new_key, new_value) :: entries n).
Proof.
  intros Hsize idx result. unfold MappingType in *.
  destruct (InsertNodeAfter_slots n old_value new_key new_value Hsize)
    as (Hidx & Hret & Hsz & Hlen & Hget).
  fold idx in Hidx, Hget. fold result in Hret, Hsz, Hlen, Hget.
  assert (E : entries result.2
              = take (Z.to_nat idx) (entries n)
                ++ (new_key, new_value) :: drop (Z.to_nat idx) (entries n)).
  { unfold entries at 1. rewrite Hsz.
    apply (take_inserted dflt); try lia; try assumption. }
  split; [exact Hret |]. split; [exact Hsz |]. split; [exact E |].
  intros Hnone. rewrite E.
  assert (idx = 0) as ->; [| reflexivity].
  unfold idx. destruct (ValueIndex_spec n old_value) as [[-> _]|(Hr & Hv & _)].
  - reflexivity.
  - exfalso. exact (Hnone _ Hr Hv).
Qed.

(** What [Remove] does, slot by slot, with an index in range. *)
Lemma Remove_in_range_slots (n : @t K) (index : Z) :
  0 <= index < GetSize n -> GetSize n <= Z.of_nat (length (array n)) ->
  let n' := (Remove default_key index n).2 in
  (Remove default_key index n).1 = Returned tt /\
  GetSize n' = GetSize n - 1 /\
  length (array n') = length (array n) /\
  (forall j, 0 <= j < GetSize n - 1 ->
             item_at n' j
             = if j <? index then item_at n j else item_at n (j + 1)).
Proof.
  intros Hindex Hcap n'. unfold MappingType in *.
  unfold n', Remove, out_of_range.
  destruct (Z.ltb_spec index 0); [lia |].
  destruct (Z.geb_spec index (GetSize n)); [lia |]. simpl.
  destruct (shift_left_spec dflt _ index (GetSize n - 1) (array n) eq_refl)
    as [Hlen Hget]; try lia.
  repeat split; try assumption; try (unfold GetSize; simpl; lia).
  intros j Hj. unfold at_. simpl. rewrite Hget.
  destruct (Z.leb_spec index j), (Z.ltb_spec j index),
    (Z.ltb_spec j (GetSize n - 1)); simpl; try reflexivity; lia.
Qed.

(** X19.  [Remove] with an index in [0, size) returns normally, makes
    the page one entry smaller and leaves the other entries in order. *)
Theorem Remove_in_range_drops_entry (n : @t K) (index : Z) :
  0 <= index < GetSize n -> GetSize n <= Z.of_nat (length (array n)) ->
  let result := Remove default_key index n in
  result.1 = Returned tt /\
  GetSize result.2 = GetSize n - 1 /\
  entries result.2
  = take (Z.to_nat index) (entries n)
    ++ drop (S (Z.to_nat index)) (entries n).
Proof.
  intros Hindex Hcap result. unfold MappingType in *.
  destruct (Remove_in_range_slots n index Hindex Hcap)
    as (Hret & Hsz & Hlen & Hget).
  fold result in Hret, Hsz, Hlen, Hget.
  split; [exact Hret |]. split; [exact Hsz |].
  unfold entries at 1. rewrite Hsz.
  apply (take_removed dflt); try lia; try assumption.
Qed.

(** X20.  Insert, then remove.  After [InsertNodeAfter], [Remove] at the
    index just after the one [ValueIndex] found gives back the old
    entries. *)
Theorem InsertNodeAfter_then_Remove_restores
    (n : @t K) (old_value : page_id_t) (new_key : K) (new_value : page_id_t) :
  0 <= GetSize n < Z.of_nat (length (array n)) ->
  let idx := value_index n old_value + 1 in
  let n' := (insert_after old_value new_key new_value n).2 in
  (Remove default_key idx n').1 = Returned tt /\
  GetSize (Remove default_key idx n').2 = GetSize n /\
  entries (Remove default_key idx n').2 = entries n.
Proof.
  intros Hsize idx n'. unfold MappingType in *.
  destruct (InsertNodeAfter_slots n old_value new_key new_value Hsize)
    as (Hidx & _ & Hsz & Hlen & Hget).
  fold idx in Hidx, Hget. fold n' in Hsz, Hlen, Hget.
  unfold MappingType in *.
  destruct (Remove_in_range_slots n' idx ltac:(lia)
              ltac:(unfold MappingType in *; lia))
    as (Hret & Hsz' & Hlen' & Hget').
  unfold MappingType in *.
  split; [exact Hret |]. split; [lia |].
  unfold entries. replace (GetSize (Remove default_key idx n').2)
    with (GetSize n) by lia.
  apply (take_slots dflt).
  - rewrite length_take. lia.
  - lia.
  - intros i Hi. rewrite lookup_take_lt by lia.
    rewrite (array_get_lookup dflt) by lia. f_equal.
    change (item_at n (Z.of_nat i)
            = item_at (Remove default_key idx n').2 (Z.of_nat i)).
    rewrite Hget' by lia. rewrite !Hget.
    destruct (Z.ltb_spec (Z.of_nat i) idx), (Z.eqb_spec (Z.of_nat i) idx),
      (Z.eqb_spec (Z.of_nat i + 1) idx), (Z.ltb_spec idx (Z.of_nat i)),
      (Z.ltb_spec idx (Z.of_nat i + 1)), (Z.leb_spec (Z.of_nat i) (GetSize n)),
      (Z.leb_spec (Z.of_nat i + 1) (GetSize n)); simpl; try lia;
      try reflexivity; f_equal; lia.
Qed.

(** X21.  [SetKeyAt] with an index in [0, size) changes that key and
    nothing else: [KeyAt] then returns the new key there, every value and
    every other key reads as before, and the size is unchanged. *)
Theorem SetKeyAt_then_KeyAt (n : @t K) (index : Z) (key : K) :
  0 <= index < GetSize n -> GetSize n <= Z.of_nat (length (array n)) ->
  let result := SetKeyAt default_key index key n in
  result.1 = Returned tt /\
  GetSize result.2 = GetSize n /\
  KeyAt default_key result.2 index = Returned key /\
  (forall j, ValueAt default_key result.2 j = ValueAt default_key n j) /\
  (forall j, j <> index ->
             KeyAt default_key result.2 j = KeyAt default_key n j).
Proof.
  intros Hindex Hcap result. unfold MappingType in *.
  unfold result, SetKeyAt, out_of_range.
  destruct (Z.ltb_spec index 0); [lia |].
  destruct (Z.geb_spec index (GetSize n)); [lia |]. simpl.
  split; [reflexivity |]. split; [reflexivity |].
  set (n' := set_array (array_set (array n) index (key, (item_at n index).2))
               n).
  assert (Hidx : item_at n' index = (key, (item_at n index).2)).
  { unfold n', at_. simpl. apply array_get_set_eq.
    unfold MappingType in *. lia. }
  assert (Hother : forall j, j <> index -> item_at n' j = item_at n j).
  { intros j Hj. unfold n', at_. simpl. apply array_get_set_ne. lia. }
  split; [| split].
  - unfold KeyAt, out_of_range.
    change (GetSize n') with (GetSize n).
    destruct (Z.ltb_spec index 0); [lia |].
    destruct (Z.geb_spec index (GetSize n)); [lia |]. simpl.
    now rewrite Hidx.
  - intros j. unfold ValueAt, out_of_range.
    change (GetSize n') with (GetSize n).
    destruct ((j <? 0) || (j >=? GetSize n)); [reflexivity |].
    destruct (Z.eq_dec j index) as [->|Hne].
    + now rewrite Hidx.
    + now rewrite Hother.
  - intros j Hj. unfold KeyAt, out_of_range.
    change (GetSize n') with (GetSize n).
    destruct ((j <? 0) || (j >=? GetSize n)); [reflexivity |].
    now rewrite Hother.
Qed.

End InternalUpdateFacts.

Lemma PopulateNewRoot_then_Lookup_witness :
  BPlusTreeInternalPage.Lookup int_comparator 0
    (BPlusTreeInternalPage.PopulateNewRoot 0 50 7 51 sample_internal) 9
  = Returned 51.
Proof.
  apply (PopulateNewRoot_then_Lookup int_comparator 0 sample_internal
           50 7 51 9).
  simpl. lia.
Defined.

Lemma InsertNodeAfter_places_pair_witness :
  BPlusTreeInternalPage.entries
    (BPlusTreeInternalPage.InsertNodeAfter 0 101 7 777 roomy_internal).2
  = [(0, 100); (5, 101); (7, 777); (9, 102)].
Proof.
  apply (InsertNodeAfter_places_pair 0 roomy_internal 101 7 777).
  cbn. lia.
Defined.

Lemma Remove_in_range_drops_entry_witness :
  BPlusTreeInternalPage.entries
    (BPlusTreeInternalPage.Remove 0 1 sample_internal).2
  = [(0, 100); (9, 102); (20, 103)].
Proof.
  apply (Remove_in_range_drops_entry 0 sample_internal 1); cbn; lia.
Defined.

Lemma InsertNodeAfter_then_Remove_restores_witness :
  BPlusTreeInternalPage.entries
    (BPlusTreeInternalPage.Remove 0 2
       (BPlusTreeInternalPage.InsertNodeAfter 0 101 7 777 roomy_internal).2).2
  = BPlusTreeInternalPage.entries roomy_internal.
Proof.
  apply (InsertNodeAfter_then_Remove_restores 0 roomy_internal 101 7 777).
  cbn. lia.
Defined.

Lemma SetKeyAt_then_KeyAt_witness :
  BPlusTreeInternalPage.KeyAt 0
    (BPlusTreeInternalPage.SetKeyAt 0 2 8 sample_internal).2 2
  = Returned 8.
Proof.
  apply (SetKeyAt_then_KeyAt 0 sample_internal 2 8); cbn; lia.
Defined.

(** ** More on the buffer pool: what each path of a fetch does *)

Section BufferPoolPathFacts.
Import BufferPoolManager.

Lemma page_at_in_range (s : t) (f : frame_id_t) (p : Page) :
  page_at s f = Returned p ->
  0 <= f < Z.of_nat (length (pages_ s)) /\ pages_ s !! Z.to_nat f = Some p.
Proof.
  unfold page_at. destruct (Z.ltb_spec f 0); [discriminate |].
  destruct (pages_ s !! Z.to_nat f) eqn:E; [| discriminate].
  intros [= <-]. split; [| reflexivity].
  apply lookup_lt_Some in E. lia.
Qed.

Lemma page_at_of_range (s : t) (f : frame_id_t) :
  0 <= f < Z.of_nat (length (pages_ s)) ->
  exists p, page_at s f = Returned p.
Proof.
  intros Hf. unfold page_at. destruct (Z.ltb_spec f 0); [lia |].
  destruct (lookup_lt_is_Some_2 (pages_ s) (Z.to_nat f)) as [p ->]; [lia |].
  eauto.
Qed.

(** The page a frame holds after the frames are updated at [f]. *)
Lemma page_at_insert
    (sz : Z) (ps : list Page) (pt : gmap Z Z) (fl : list frame_id_t)
    (r : LRUReplacer.t) (d : DiskManager.t) (f g : frame_id_t) (q : Page) :
  0 <= f < Z.of_nat (length ps) -> 0 <= g ->
  page_at (mk sz (<[Z.to_nat f := q]> ps) pt fl r d) g
  = if g =? f then Returned q
    else match ps !! Z.to_nat g with
         | Some p => Returned p
         | None => Undefined
         end.
Proof.
  intros Hf Hg. unfold page_at. simpl.
  destruct (Z.ltb_spec g 0); [lia |].
  destruct (Z.eqb_spec g f) as [->|Hne].
  - now rewrite list_lookup_insert_eq by lia.
  - now rewrite list_lookup_insert_ne by lia.
Qed.

Lemma umap_insert_fresh (k v : Z) (m : gmap Z Z) :
  m !! k = None -> umap_insert k v m = <[k := v]> m.
Proof. intros H. unfold umap_insert. now rewrite H. Qed.

(** The hit path of [FetchPageImpl]. *)
Lemma Fetch_hit (s : t) (page_id : page_id_t) (f : frame_id_t) (p : Page) :
  page_table_ s !! page_id = Some f ->
  page_at s f = Returned p ->
  FetchPageImpl page_id s
  = Returned
      (Some f,
       mk (pool_size_ s)
          (<[Z.to_nat f := mkPage (data_ p) (page_id_ p) (pin_count_ p + 1)
                                  (is_dirty_ p)]> (pages_ s))
          (page_table_ s) (free_list_ s)
          (LRUReplacer.Pin f (replacer_ s)) (disk_manager_ s)).
Proof.
  intros Hpt Hp. unfold FetchPageImpl. rewrite Hpt, Hp. reflexivity.
Qed.

(** The miss path that takes a frame from the free list. *)
Lemma Fetch_from_free_list
    (s : t) (page_id : page_id_t) (f : frame_id_t) (rest : list frame_id_t)
    (p : Page) :
  page_table_ s !! page_id = None ->
  free_list_ s = f :: rest ->
  page_at s f = Returned p ->
  FetchPageImpl page_id s
  = Returned
      (Some f,
       mk (pool_size_ s)
          (<[Z.to_nat f :=
               mkPage (DiskManager.ReadPage page_id (disk_manager_ s)).1
                      page_id 1 false]> (pages_ s))
          (<[page_id := f]> (page_table_ s)) rest
          (LRUReplacer.Pin f (replacer_ s))
          (DiskManager.ReadPage page_id (disk_manager_ s)).2).
Proof.
  intros Hpt Hfl Hp. unfold FetchPageImpl. rewrite Hpt, Hfl.
  change (page_at (set_page_table
                     (umap_insert page_id f
                        (page_table_ (set_free_list rest s)))
                     (set_free_list rest s)) f)
    with (page_at s f).
  rewrite Hp. simpl. rewrite umap_insert_fresh by assumption. reflexivity.
Qed.

(** The miss path that evicts the victim the replacer yields. *)
Lemma Fetch_from_victim
    (s : t) (page_id : page_id_t) (f : frame_id_t) (rest : list frame_id_t)
    (p : Page) :
  page_table_ s !! page_id = None ->
  free_list_ s = [] ->
  LRUReplacer.unpinned_frames (replacer_ s) = f :: rest ->
  page_at s f = Returned p ->
  page_table_ s !! page_id_ p = Some f ->
  let d := written_back p (disk_manager_ s) in
  FetchPageImpl page_id s
  = Returned
      (Some f,
       mk (pool_size_ s)
          (<[Z.to_nat f :=
               mkPage (DiskManager.ReadPage page_id d).1 page_id 1 false]>
             (pages_ s))
          (<[page_id := f]> (delete (page_id_ p) (page_table_ s))) []
          (LRUReplacer.Pin f (LRUReplacer.mk rest))
          (DiskManager.ReadPage page_id d).2).
Proof.
  intros Hpt Hfl Hr Hp Hold d. unfold FetchPageImpl.
  rewrite Hpt, Hfl. unfold LRUReplacer.Victim. rewrite Hr.
  change (page_at (set_replacer (LRUReplacer.mk rest) s) f)
    with (page_at s f).
  rewrite Hp. simpl. unfold d, written_back.
  assert (Hfresh : delete (page_id_ p) (page_table_ s) !! page_id = None).
  { rewrite lookup_delete_None. now right. }
  destruct (is_dirty_ p); simpl; rewrite Hold;
    rewrite umap_insert_fresh by assumption;
    unfold set_page, set_disk_manager, set_replacer, set_page_table;
    cbn [pool_size_ pages_ page_table_ free_list_ replacer_ disk_manager_];
    rewrite Hfl; reflexivity.
Qed.

(** The miss path with no free frame and nothing to evict. *)
Lemma Fetch_exhausted (s : t) (page_id : page_id_t) :
  page_table_ s !! page_id = None ->
  free_list_ s = [] ->
  LRUReplacer.unpinned_frames (replacer_ s) = [] ->
  FetchPageImpl page_id s = Returned (None, s).
Proof.
  intros Hpt Hfl Hr. unfold FetchPageImpl.
  rewrite Hpt, Hfl. unfold LRUReplacer.Victim. now rewrite Hr.
Qed.

End BufferPoolPathFacts.

(** ** More on the buffer pool: the bookkeeping stays consistent *)

Section BufferPoolInvariantFacts.
Import BufferPoolManager.

(** Changing the contents of a resident frame, but not the page it
    holds, and narrowing the replacer keeps a pool well formed. *)
Lemma pool_wf_update_page
    (s : t) (f : frame_id_t) (p q : Page) (r : LRUReplacer.t)
    (d : DiskManager.t) :
  pool_wf s ->
  page_at s f = Returned p ->
  page_id_ q = page_id_ p ->
  (forall g, g ∈ LRUReplacer.unpinned_frames r ->
             exists page_id, page_table_ s !! page_id = Some g) ->
  NoDup (LRUReplacer.unpinned_frames r) ->
  pool_wf (mk (pool_size_ s) (<[Z.to_nat f := q]> (pages_ s))
              (page_table_ s) (free_list_ s) r d).
Proof.
  intros Hwf Hp Hq Hr Hnd.
  destruct (page_at_in_range s f p Hp) as [Hf Hlook].
  split; simpl.
  - intros page_id g Hg.
    destruct (wf_table s Hwf page_id g Hg) as (p' & Hp' & Hid).
    destruct (page_at_in_range s g p' Hp') as [Hgr Hglook].
    rewrite page_at_insert by lia.
    destruct (Z.eqb_spec g f) as [->|Hne].
    + exists q. split; [reflexivity |]. congruence.
    + rewrite Hglook. eauto.
  - intros g Hg. rewrite length_insert. now apply (wf_free s Hwf).
  - apply (wf_free_distinct s Hwf).
  - exact Hr.
  - exact Hnd.
  - rewrite length_insert. apply (wf_count s Hwf).
Qed.

(** Putting a page that is not resident into a frame that holds no
    resident page, is not free and is not tracked keeps the bookkeeping
    consistent. *)
Lemma pool_wf_install
    (sz : Z) (ps : list Page) (pt : gmap Z Z) (fl rl : list frame_id_t)
    (d : DiskManager.t) (f : frame_id_t) (page_id : page_id_t) (q : Page) :
  0 <= f < Z.of_nat (length ps) ->
  page_id_ q = page_id ->
  pt !! page_id = None ->
  (forall pid g, pt !! pid = Some g ->
     g <> f /\ 0 <= g /\
     exists p, ps !! Z.to_nat g = Some p /\ page_id_ p = pid) ->
  (forall g, g ∈ fl ->
     (0 <= g < Z.of_nat (length ps) /\ g <> f) /\
     forall pid, pt !! pid <> Some g) ->
  NoDup fl ->
  (forall g, g ∈ rl -> exists pid, pt !! pid = Some g) ->
  NoDup rl ->
  (size pt + length fl + 1 = length ps)%nat ->
  pool_wf (mk sz (<[Z.to_nat f := q]> ps) (<[page_id := f]> pt) fl
              (LRUReplacer.Pin f (LRUReplacer.mk rl)) d).
Proof.
  intros Hf Hq Hfresh Htable Hfree Hfnd Hrepl Hrnd Hcount.
  split; simpl.
  - intros pid g Hg. apply lookup_insert_Some in Hg as [[<- <-]|[Hne Hg]].
    + exists q. split; [| exact Hq].
      rewrite page_at_insert by lia.
      now rewrite Z.eqb_refl.
    + destruct (Htable pid g Hg) as (Hgf & Hg0 & p & Hlook & Hid).
      exists p. split; [| exact Hid].
      rewrite page_at_insert by lia.
      destruct (Z.eqb_spec g f); [contradiction |]. now rewrite Hlook.
  - intros g Hg. destruct (Hfree g Hg) as [[Hgr Hgf] Hun].
    rewrite length_insert. split; [exact Hgr |].
    intros pid Hpid. apply lookup_insert_Some in Hpid as [[_ E]|[_ Hpid]].
    + congruence.
    + exact (Hun pid Hpid).
  - exact Hfnd.
  - intros g Hg. apply erase_first_subset in Hg.
    destruct (Hrepl g Hg) as [pid Hpid]. exists pid.
    rewrite lookup_insert_ne; [exact Hpid | congruence].
  - now apply erase_first_NoDup.
  - rewrite length_insert, map_size_insert_None by assumption. lia.
Qed.

Lemma create_pool_wf (pool_size : nat) (d : DiskManager.t) :
  pool_wf (create pool_size d).
Proof.
  split; simpl.
  - intros page_id f Hf. rewrite lookup_empty in Hf. discriminate.
  - intros f Hf. apply elem_of_seqZ in Hf. rewrite length_replicate.
    split; [lia |]. intros page_id. rewrite lookup_empty. discriminate.
  - apply NoDup_seqZ.
  - intros f Hf. inversion Hf.
  - constructor.
  - rewrite map_size_empty, length_seqZ, length_replicate. lia.
Qed.

Lemma Fetch_keeps_pool_wf (s : t) (page_id : page_id_t) :
  pool_wf s ->
  exists result s',
    FetchPageImpl page_id s = Returned (result, s') /\
    pool_wf s' /\
    length (pages_ s') = length (pages_ s).
Proof.
  intros Hwf.
  destruct (page_table_ s !! page_id) as [f|] eqn:Hpt.
  - destruct (wf_table s Hwf page_id f Hpt) as (p & Hp & Hid).
    rewrite (Fetch_hit s page_id f p Hpt Hp).
    eexists. eexists. split; [reflexivity |]. split.
    + apply (pool_wf_update_page s f p); try assumption; try reflexivity.
      * intros g Hg. apply erase_first_subset in Hg.
        now apply (wf_replacer s Hwf).
      * apply erase_first_NoDup, (wf_replacer_distinct s Hwf).
    + simpl. apply length_insert.
  - destruct (free_list_ s) as [|f rest] eqn:Hfl.
    + destruct (LRUReplacer.unpinned_frames (replacer_ s)) as [|f rest]
        eqn:Hr.
      * rewrite (Fetch_exhausted s page_id Hpt Hfl Hr). eauto.
      * destruct (wf_replacer s Hwf f) as [old Hold];
          [rewrite Hr; left |].
        destruct (wf_table s Hwf old f Hold) as (p & Hp & Hid).
        destruct (page_at_in_range s f p Hp) as [Hf Hlook].
        rewrite (Fetch_from_victim s page_id f rest p Hpt Hfl Hr Hp
                   ltac:(congruence)).
        eexists. eexists. split; [reflexivity |]. split;
          [| simpl; apply length_insert].
        pose proof (wf_replacer_distinct s Hwf) as Hnd. rewrite Hr in Hnd.
        apply NoDup_cons in Hnd as [Hfrest Hnd].
        apply pool_wf_install; try assumption; try reflexivity.
        -- rewrite lookup_delete_None. now right.
        -- intros pid g Hg. apply lookup_delete_Some in Hg as [Hne Hg].
           destruct (wf_table s Hwf pid g Hg) as (p' & Hp' & Hid').
           destruct (page_at_in_range s g p' Hp') as [Hgr Hglook].
           split; [| split; [lia | eauto]].
           intros ->. congruence.
        -- intros g Hg. inversion Hg.
        -- constructor.
        -- intros g Hg. destruct (wf_replacer s Hwf g) as [pid Hpid];
             [rewrite Hr; now right |].
           exists pid. rewrite lookup_delete_ne; [exact Hpid |].
           intros <-. rewrite Hid in Hpid. congruence.
        -- pose proof (wf_count s Hwf) as Hc. rewrite Hfl in Hc.
           rewrite map_size_delete_Some by (rewrite Hid; eauto).
           simpl in *. assert (size (page_table_ s) <> 0%nat); [| lia].
           intros Hz. apply map_size_empty_inv in Hz.
           rewrite Hz, lookup_empty in Hold. discriminate.
    + pose proof (wf_free s Hwf f) as Hfree. rewrite Hfl in Hfree.
      destruct (Hfree ltac:(left)) as [Hf Hun].
      destruct (page_at_of_range s f Hf) as [p Hp].
      rewrite (Fetch_from_free_list s page_id f rest p Hpt Hfl Hp).
      eexists. eexists. split; [reflexivity |]. split;
        [| simpl; apply length_insert].
      pose proof (wf_free_distinct s Hwf) as Hnd. rewrite Hfl in Hnd.
      apply NoDup_cons in Hnd as [Hfrest Hnd].
      destruct (replacer_ s) as [rl] eqn:Hrl.
      apply pool_wf_install; try assumption; try reflexivity.
      * intros pid g Hg.
        destruct (wf_table s Hwf pid g Hg) as (p' & Hp' & Hid').
        destruct (page_at_in_range s g p' Hp') as [Hgr Hglook].
        split; [| split; [lia | eauto]].
        intros ->. exact (Hun pid Hg).
      * intros g Hg. pose proof (wf_free s Hwf g) as Hg'. rewrite Hfl in Hg'.
        destruct (Hg' ltac:(now right)) as [Hgr Hgun].
        split; [| exact Hgun]. split; [exact Hgr |]. intros ->. contradiction.
      * intros g Hg. apply (wf_replacer s Hwf). now rewrite Hrl.
      * pose proof (wf_replacer_distinct s Hwf) as H. now rewrite Hrl in H.
      * pose proof (wf_count s Hwf) as Hc. rewrite Hfl in Hc. simpl in Hc. lia.
Qed.

(** X22.  The constructor makes a well-formed pool: no page is resident,
    every frame is in the free list, and the replacer is empty. *)
Theorem create_makes_well_formed_pool (pool_size : nat) (d : DiskManager.t) :
  pool_wf (create pool_size d) /\
  page_table_ (create pool_size d) = ∅ /\
  free_list_ (create pool_size d) = seqZ 0 (Z.of_nat pool_size) /\
  length (pages_ (create pool_size d)) = pool_size /\
  LRUReplacer.Size (replacer_ (create pool_size d)) = 0.
Proof.
  split; [apply create_pool_wf |].
  repeat split. simpl. apply length_replicate.
Qed.


End BufferPoolInvariantFacts.


(** ** More on the buffer pool: hits, misses, eviction, exhaustion *)

Section BufferPoolFetchFacts.
Import BufferPoolManager.


(** X25.  A miss with a free frame.  When the page is not resident and
    the free list is not empty, [FetchPageImpl] uses the front frame of
    the free list: it returns that frame holding the page as read from
    disk, pinned once and clean; no page is evicted, the replacer is left
    as it was, and the only disk call is the read. *)
Theorem FetchPageImpl_miss_takes_free_frame_first
    (s : t) (page_id : page_id_t) (f : frame_id_t) (rest : list frame_id_t) :
  pool_wf s ->
  page_table_ s !! page_id = None ->
  free_list_ s = f :: rest ->
  exists s',
    FetchPageImpl page_id s = Returned (Some f, s') /\
    page_at s' f
    = Returned (mkPage (DiskManager.ReadPage page_id (disk_manager_ s)).1
                       page_id 1 false) /\
    page_table_ s' = <[page_id := f]> (page_table_ s) /\
    free_list_ s' = rest /\
    replacer_ s' = replacer_ s /\
    DiskManager.calls (disk_manager_ s')
    = DiskManager.ReadPageCall page_id
      :: DiskManager.calls (disk_manager_ s) /\
    DiskManager.file (disk_manager_ s') = DiskManager.file (disk_manager_ s).
Proof.
  intros Hwf Hpt Hfl.
  pose proof (wf_free s Hwf f) as Hfree. rewrite Hfl in Hfree.
  destruct (Hfree ltac:(left)) as [Hf Hun].
  destruct (page_at_of_range s f Hf) as [p Hp].
  rewrite (Fetch_from_free_list s page_id f rest p Hpt Hfl Hp).
  eexists. split; [reflexivity |].
  split; [rewrite page_at_insert by lia; now rewrite Z.eqb_refl |].
  repeat split. simpl.
  destruct (replacer_ s) as [rl] eqn:Hrl. unfold LRUReplacer.Pin. simpl.
  rewrite erase_first_absent; [reflexivity |].
  intros Hin. destruct (wf_replacer s Hwf f) as [pid Hpid].
  - now rewrite Hrl.
  - exact (Hun pid Hpid).
Qed.

(** X26.  A miss that evicts.  When the page is not resident and the free
    list is empty, [FetchPageImpl] on a well-formed pool takes the frame
    at the front of the replacer.  The page that frame held is no longer
    resident, the requested page is, pinned once and clean, and the frame
    leaves the replacer.  A dirty victim is written to disk before the
    read, so that a later read of its page id yields the contents it had
    in the frame; a clean victim causes no write. *)
Theorem FetchPageImpl_miss_evicts_replacer_front
    (s : t) (page_id : page_id_t) (f : frame_id_t) (rest : list frame_id_t)
    (p : Page) :
  pool_wf s ->
  page_table_ s !! page_id = None ->
  free_list_ s = [] ->
  LRUReplacer.unpinned_frames (replacer_ s) = f :: rest ->
  page_at s f = Returned p ->
  exists s',
    FetchPageImpl page_id s = Returned (Some f, s') /\
    page_table_ s' !! page_id = Some f /\
    page_table_ s' !! page_id_ p = None /\
    (exists victim_data,
       page_at s' f = Returned (mkPage victim_data page_id 1 false)) /\
    LRUReplacer.unpinned_frames (replacer_ s') = rest /\
    (is_dirty_ p = true ->
     DiskManager.calls (disk_manager_ s')
     = DiskManager.ReadPageCall page_id
       :: DiskManager.WritePageCall (page_id_ p) (data_ p)
       :: DiskManager.calls (disk_manager_ s) /\
     (DiskManager.ReadPage (page_id_ p) (disk_manager_ s')).1 = data_ p) /\
    (is_dirty_ p = false ->
     DiskManager.calls (disk_manager_ s')
     = DiskManager.ReadPageCall page_id
       :: DiskManager.calls (disk_manager_ s) /\
     DiskManager.file (disk_manager_ s') = DiskManager.file (disk_manager_ s)).
Proof.
  intros Hwf Hpt Hfl Hr Hp.
  destruct (page_at_in_range s f p Hp) as [Hf Hlook].
  destruct (wf_replacer s Hwf f) as [old Hold]; [rewrite Hr; left |].
  destruct (wf_table s Hwf old f Hold) as (p' & Hp' & Hid).
  assert (p' = p) as -> by congruence. subst old.
  assert (Hne : page_id_ p <> page_id) by congruence.
  rewrite (Fetch_from_victim s page_id f rest p Hpt Hfl Hr Hp Hold).
  eexists. split; [reflexivity |]. simpl.
  split; [apply lookup_insert_eq |].
  split; [rewrite lookup_insert_ne by congruence; apply lookup_delete_eq |].
  split; [eexists; rewrite page_at_insert by lia; now rewrite Z.eqb_refl |].
  split.
  { apply erase_first_absent.
    pose proof (wf_replacer_distinct s Hwf) as Hnd. rewrite Hr in Hnd.
    now apply NoDup_cons in Hnd as [Hfrest _]. }
  unfold written_back. split; intros ->; simpl; split; try reflexivity.
  unfold DiskManager.ReadPage. simpl. now rewrite lookup_insert_eq.
Qed.

(** X27.  Exhaustion.  When the page is not resident, the free list is
    empty and the replacer tracks no frame, [FetchPageImpl] returns
    [nullptr] and [NewPageImpl] returns [nullptr] without asking the disk
    manager for a page id; both leave the pool exactly as it was. *)
Theorem Fetch_and_NewPage_fail_when_exhausted (s : t) (page_id : page_id_t) :
  page_table_ s !! page_id = None ->
  free_list_ s = [] ->
  LRUReplacer.unpinned_frames (replacer_ s) = [] ->
  FetchPageImpl page_id s = Returned (None, s) /\
  NewPageImpl s = Returned (None, s).
Proof.
  intros Hpt Hfl Hr. split; [now apply Fetch_exhausted |].
  unfold NewPageImpl, LRUReplacer.Size. rewrite Hfl, Hr. reflexivity.
Qed.

Lemma Replacer_distinct_after_Unpin (r : LRUReplacer.t) (f : frame_id_t) :
  NoDup (LRUReplacer.unpinned_frames r) ->
  NoDup (LRUReplacer.unpinned_frames (LRUReplacer.Unpin f r)).
Proof.
  intros Hnd. unfold LRUReplacer.Unpin. destruct (f <? 0); [assumption |].
  destruct (LRUReplacer.already_unpinned f (LRUReplacer.unpinned_frames r))
    eqn:E; [assumption |].
  simpl. apply NoDup_app. repeat split; [assumption | | apply NoDup_singleton].
  intros x Hx Hx'. apply list_elem_of_singleton in Hx' as ->.
  apply already_unpinned_spec in Hx. congruence.
Qed.

Lemma Unpin_keeps_pool_wf
    (s : t) (page_id : page_id_t) (is_dirty : bool) (f : frame_id_t) :
  pool_wf s ->
  page_table_ s !! page_id = Some f ->
  exists result s',
    UnpinPageImpl page_id is_dirty s = Returned (result, s') /\
    pool_wf s' /\
    page_table_ s' = page_table_ s /\
    free_list_ s' = free_list_ s /\
    disk_manager_ s' = disk_manager_ s /\
    (forall g, pin_count_at s' g = pin_count_at s g).
Proof.
  intros Hwf Hpt.
  destruct (wf_table s Hwf page_id f Hpt) as (p & Hp & Hid).
  destruct (page_at_in_range s f p Hp) as [Hf Hlook].
  unfold UnpinPageImpl. rewrite Hpt, Hp. simpl.
  destruct (pin_count_ p <=? 0).
  { eexists. eexists. split; [reflexivity |].
    split; [exact Hwf | repeat split]. }
  assert (Hrepl : forall g,
            g ∈ LRUReplacer.unpinned_frames
                  (LRUReplacer.Unpin f (replacer_ s)) ->
            exists pid, page_table_ s !! pid = Some g).
  { intros g. unfold LRUReplacer.Unpin.
    destruct (f <? 0); [apply (wf_replacer s Hwf) |].
    destruct (LRUReplacer.already_unpinned f _);
      [apply (wf_replacer s Hwf) |].
    simpl. rewrite elem_of_app, list_elem_of_singleton.
    intros [Hg| ->]; [now apply (wf_replacer s Hwf) | eauto]. }
  assert (Hnd : NoDup (LRUReplacer.unpinned_frames
                         (LRUReplacer.Unpin f (replacer_ s)))).
  { apply (Replacer_distinct_after_Unpin (replacer_ s) f),
      (wf_replacer_distinct s Hwf). }
  eexists. eexists. split; [reflexivity |].
  destruct is_dirty.
  - split.
    + apply (pool_wf_update_page s f p); try assumption; reflexivity.
    + repeat split. intros g. unfold pin_count_at. simpl.
      destruct (Nat.eq_dec (Z.to_nat g) (Z.to_nat f)) as [->|Hne].
      * rewrite list_lookup_insert_eq by lia. now rewrite Hlook.
      * now rewrite list_lookup_insert_ne by congruence.
  - split; [| repeat split].
    replace (set_replacer (LRUReplacer.Unpin f (replacer_ s)) s)
      with (mk (pool_size_ s) (<[Z.to_nat f := p]> (pages_ s))
               (page_table_ s) (free_list_ s)
               (LRUReplacer.Unpin f (replacer_ s)) (disk_manager_ s)).
    + apply (pool_wf_update_page s f p); try assumption; reflexivity.
    + unfold set_replacer. f_equal. now apply list_insert_id.
Qed.

(** X28.  On a well-formed pool [UnpinPageImpl] of a resident page always
    returns and leaves a well-formed pool; the page table, the free list,
    the disk manager and every pin count stay as they were. *)
Theorem UnpinPageImpl_keeps_pool_well_formed
    (s : t) (page_id : page_id_t) (is_dirty : bool) (f : frame_id_t) :
  pool_wf s ->
  page_table_ s !! page_id = Some f ->
  exists result s',
    UnpinPageImpl page_id is_dirty s = Returned (result, s') /\
    pool_wf s' /\
    page_table_ s' = page_table_ s /\
    free_list_ s' = free_list_ s /\
    disk_manager_ s' = disk_manager_ s /\
    (forall g, pin_count_at s' g = pin_count_at s g).
Proof. apply Unpin_keeps_pool_wf. Qed.

End BufferPoolFetchFacts.

(** ** More on the buffer pool: new pages, and unpin followed by a fetch *)

Section BufferPoolNewPageFacts.
Import BufferPoolManager.

Local Abbreviation blank_page page_id :=
  (mkPage (replicate PAGE_SIZE 0) page_id 1 false).

Local Ltac pool_cbn :=
  unfold set_page, set_page_table, set_free_list, set_replacer,
    set_disk_manager, page_at, LRUReplacer.Victim;
  cbn [pool_size_ pages_ page_table_ free_list_ replacer_ disk_manager_
       obind ResetMemory data_ page_id_ pin_count_ is_dirty_
       DiskManager.AllocatePage DiskManager.WritePage DiskManager.file
       DiskManager.next_page_id DiskManager.calls
       LRUReplacer.unpinned_frames fst snd andb].

(** The path of [NewPageImpl] that takes a frame from the free list. *)
Lemma NewPage_from_free_list
    (s : t) (f : frame_id_t) (rest : list frame_id_t) (p : Page) :
  free_list_ s = f :: rest ->
  page_at s f = Returned p ->
  let new_page_id := DiskManager.next_page_id (disk_manager_ s) in
  NewPageImpl s
  = Returned
      (Some (new_page_id, f),
       mk (pool_size_ s)
          (<[Z.to_nat f := blank_page new_page_id]> (pages_ s))
          (<[new_page_id := f]> (page_table_ s)) rest
          (LRUReplacer.Pin f (replacer_ s))
          (DiskManager.AllocatePage (disk_manager_ s)).2).
Proof.
  intros Hfl Hp new_page_id.
  destruct (page_at_in_range s f p Hp) as [Hf Hlook].
  assert (Hltb : (f <? 0) = false) by (apply Z.ltb_ge; lia).
  unfold NewPageImpl.
  rewrite Hfl. rewrite bool_decide_eq_false_2 by discriminate.
  pool_cbn. rewrite Hfl. pool_cbn. rewrite Hltb, Hlook. pool_cbn.
  reflexivity.
Qed.

(** The path of [NewPageImpl] that evicts the victim the replacer
    yields. *)
Lemma NewPage_from_victim
    (s : t) (f : frame_id_t) (rest : list frame_id_t) (p : Page) :
  free_list_ s = [] ->
  LRUReplacer.unpinned_frames (replacer_ s) = f :: rest ->
  page_at s f = Returned p ->
  let new_page_id := DiskManager.next_page_id (disk_manager_ s) in
  NewPageImpl s
  = Returned
      (Some (new_page_id, f),
       mk (pool_size_ s)
          (<[Z.to_nat f := blank_page new_page_id]> (pages_ s))
          (<[new_page_id := f]> (delete (page_id_ p) (page_table_ s))) []
          (LRUReplacer.Pin f (LRUReplacer.mk rest))
          (written_back p (DiskManager.AllocatePage (disk_manager_ s)).2)).
Proof.
  intros Hfl Hr Hp new_page_id.
  destruct (page_at_in_range s f p Hp) as [Hf Hlook].
  assert (Hltb : (f <? 0) = false) by (apply Z.ltb_ge; lia).
  assert (Hsize : (LRUReplacer.Size (replacer_ s) =? 0) = false).
  { unfold LRUReplacer.Size. rewrite Hr. apply Z.eqb_neq. simpl. lia. }
  unfold NewPageImpl. rewrite Hsize, andb_false_r.
  pool_cbn. rewrite Hfl, Hr. pool_cbn. rewrite Hltb, Hlook. pool_cbn.
  unfold written_back.
  destruct (is_dirty_ p); pool_cbn; rewrite ?Hltb, ?Hlook; pool_cbn;
    reflexivity.
Qed.

(** X29.  [NewPageImpl] on a well-formed pool in which the page id the
    disk manager hands out next is not resident: the call always returns
    and leaves a well-formed pool.  It fails only when there is neither a
    free frame nor a frame to evict, and then changes nothing; otherwise
    the new page has the id the disk manager allocated, is resident in
    the returned frame with a zeroed buffer, pinned once and clean, and
    that frame is neither free nor tracked by the replacer. *)
Theorem NewPageImpl_installs_blank_page (s : t) :
  pool_wf s ->
  page_table_ s !! DiskManager.next_page_id (disk_manager_ s) = None ->
  exists result s',
    NewPageImpl s = Returned (result, s') /\
    pool_wf s' /\
    match result with
    | None =>
        s' = s /\ free_list_ s = [] /\
        LRUReplacer.unpinned_frames (replacer_ s) = []
    | Some (new_page_id, f) =>
        new_page_id = DiskManager.next_page_id (disk_manager_ s) /\
        DiskManager.next_page_id (disk_manager_ s') = new_page_id + 1 /\
        page_table_ s' !! new_page_id = Some f /\
        page_at s' f = Returned (blank_page new_page_id) /\
        (f ∉ LRUReplacer.unpinned_frames (replacer_ s')) /\
        (f ∉ free_list_ s')
    end.
Proof.
  intros Hwf Hfresh.
  set (new_page_id := DiskManager.next_page_id (disk_manager_ s)) in *.
  destruct (free_list_ s) as [|f rest] eqn:Hfl.
  - destruct (LRUReplacer.unpinned_frames (replacer_ s)) as [|f rest] eqn:Hr.
    + exists None, s. split; [| split; [exact Hwf | repeat split]].
      unfold NewPageImpl, LRUReplacer.Size. rewrite Hfl, Hr. reflexivity.
    + destruct (wf_replacer s Hwf f) as [old Hold]; [rewrite Hr; left |].
      destruct (wf_table s Hwf old f Hold) as (p & Hp & Hid).
      destruct (page_at_in_range s f p Hp) as [Hf Hlook].
      rewrite (NewPage_from_victim s f rest p Hfl Hr Hp).
      fold new_page_id.
      pose proof (wf_replacer_distinct s Hwf) as Hnd. rewrite Hr in Hnd.
      apply NoDup_cons in Hnd as [Hfrest Hnd].
      eexists. eexists. split; [reflexivity |]. split.
      * apply pool_wf_install; try assumption; try reflexivity.
        -- rewrite lookup_delete_None. now right.
        -- intros pid g Hg. apply lookup_delete_Some in Hg as [Hne Hg].
           destruct (wf_table s Hwf pid g Hg) as (p' & Hp' & Hid').
           destruct (page_at_in_range s g p' Hp') as [Hgr Hglook].
           split; [| split; [lia | eauto]].
           intros ->. congruence.
        -- intros g Hg. inversion Hg.
        -- constructor.
        -- intros g Hg. destruct (wf_replacer s Hwf g) as [pid Hpid];
             [rewrite Hr; now right |].
           exists pid. rewrite lookup_delete_ne; [exact Hpid |].
           intros <-. rewrite Hid in Hpid. congruence.
        -- pose proof (wf_count s Hwf) as Hc. rewrite Hfl in Hc.
           rewrite map_size_delete_Some by (rewrite Hid; eauto).
           simpl in *. assert (size (page_table_ s) <> 0%nat); [| lia].
           intros Hz. apply map_size_empty_inv in Hz.
           rewrite Hz, lookup_empty in Hold. discriminate.
      * split; [reflexivity |]. split.
        { unfold written_back. destruct (is_dirty_ p); reflexivity. }
        split; [apply lookup_insert_eq |].
        split; [rewrite page_at_insert by lia; now rewrite Z.eqb_refl |].
        split; [| intros H; inversion H].
        cbn [replacer_]. simpl. now rewrite erase_first_absent.
  - pose proof (wf_free s Hwf f) as Hfree. rewrite Hfl in Hfree.
    destruct (Hfree ltac:(left)) as [Hf Hun].
    destruct (page_at_of_range s f Hf) as [p Hp].
    rewrite (NewPage_from_free_list s f rest p Hfl Hp).
    fold new_page_id.
    pose proof (wf_free_distinct s Hwf) as Hnd. rewrite Hfl in Hnd.
    apply NoDup_cons in Hnd as [Hfrest Hnd].
    destruct (replacer_ s) as [rl] eqn:Hrl.
    assert (Hfrl : f ∉ rl).
    { intros Hin. destruct (wf_replacer s Hwf f) as [pid Hpid].
      - now rewrite Hrl.
      - exact (Hun pid Hpid). }
    eexists. eexists. split; [reflexivity |]. split.
    + apply pool_wf_install; try assumption; try reflexivity.
      * intros pid g Hg.
        destruct (wf_table s Hwf pid g Hg) as (p' & Hp' & Hid').
        destruct (page_at_in_range s g p' Hp') as [Hgr Hglook].
        split; [| split; [lia | eauto]].
        intros ->. exact (Hun pid Hg).
      * intros g Hg. pose proof (wf_free s Hwf g) as Hg'. rewrite Hfl in Hg'.
        destruct (Hg' ltac:(now right)) as [Hgr Hgun].
        split; [| exact Hgun]. split; [exact Hgr |]. intros ->. contradiction.
      * intros g Hg. apply (wf_replacer s Hwf). now rewrite Hrl.
      * pose proof (wf_replacer_distinct s Hwf) as H. now rewrite Hrl in H.
      * pose proof (wf_count s Hwf) as Hc. rewrite Hfl in Hc. simpl in Hc. lia.
    + split; [reflexivity |]. split; [reflexivity |].
      split; [apply lookup_insert_eq |].
      split; [rewrite page_at_insert by lia; now rewrite Z.eqb_refl |].
      split; [| exact Hfrest].
      cbn [replacer_]. simpl. now rewrite erase_first_absent.
Qed.


(** X30.  A pinned page can be evicted.  Take a well-formed pool with no
    free frame and an empty replacer, and a page resident in frame [f]
    with a positive pin count.  [UnpinPageImpl] returns true and leaves
    the pin count as it is, and a fetch of a page that is not resident
    then takes frame [f]: the page is no longer resident although its
    pin count was never brought to 0. *)
Theorem Unpin_then_Fetch_evicts_pinned_page
    (s : t) (page_id other : page_id_t) (is_dirty : bool) (f : frame_id_t)
    (p : Page) :
  pool_wf s ->
  free_list_ s = [] ->
  LRUReplacer.unpinned_frames (replacer_ s) = [] ->
  page_table_ s !! page_id = Some f ->
  page_at s f = Returned p ->
  0 < pin_count_ p ->
  page_table_ s !! other = None ->
  exists s1 s2 p1,
    UnpinPageImpl page_id is_dirty s = Returned (true, s1) /\
    page_at s1 f = Returned p1 /\
    pin_count_ p1 = pin_count_ p /\
    FetchPageImpl other s1 = Returned (Some f, s2) /\
    page_table_ s2 !! page_id = None /\
    page_table_ s2 !! other = Some f.
Proof.
  intros Hwf Hfl Hr Hpt Hp Hpin Hother.
  destruct (page_at_in_range s f p Hp) as [Hf Hlook].
  destruct (wf_table s Hwf page_id f Hpt) as (p' & Hp' & Hid).
  assert (p' = p) as -> by congruence.
  destruct (UnpinPageImpl_pinned s page_id is_dirty f p Hpt Hp Hpin)
    as (s1 & Hunpin & Hrepl & Hp1 & Hpt1 & Hfl1 & Hd1).
  assert (Hr1 : LRUReplacer.unpinned_frames (replacer_ s1) = f :: []).
  { rewrite Hrepl. rewrite Unpin_absent; [now rewrite Hr | lia |].
    rewrite Hr. intros H. inversion H. }
  eexists s1, _, _. split; [exact Hunpin |]. split; [exact Hp1 |].
  split; [reflexivity |].
  rewrite (Fetch_from_victim s1 other f [] _ ltac:(congruence)
             ltac:(congruence) Hr1 Hp1 ltac:(simpl; congruence)).
  split; [reflexivity |]. simpl. rewrite Hpt1, Hid.
  split; [| apply lookup_insert_eq].
  rewrite lookup_insert_ne by congruence. apply lookup_delete_eq.
Qed.

End BufferPoolNewPageFacts.

(** ** Sample pools *)

Lemma exhausted_pool_wf : pool_wf exhausted_pool.
Proof.
  destruct (Fetch_keeps_pool_wf (fresh_pool 1) 5 (create_pool_wf 1 _))
    as (result & s' & E & Hwf & _).
  unfold exhausted_pool. simpl. rewrite E. exact Hwf.
Qed.

Lemma evictable_pool_wf : pool_wf evictable_pool.
Proof.
  destruct (Unpin_keeps_pool_wf exhausted_pool 5 true 0 exhausted_pool_wf)
    as (result & s' & E & Hwf & _).
  - vm_compute. reflexivity.
  - unfold evictable_pool. rewrite E. exact Hwf.
Qed.


Lemma FetchPageImpl_miss_takes_free_frame_first_witness :
  exists s',
    BufferPoolManager.FetchPageImpl 5 (fresh_pool 2) = Returned (Some 0, s') /\
    BufferPoolManager.free_list_ s' = [1].
Proof.
  destruct (FetchPageImpl_miss_takes_free_frame_first (fresh_pool 2) 5 0 [1]
              (create_pool_wf 2 _))
    as (s' & E & _ & _ & Hfl & _).
  - reflexivity.
  - vm_compute. reflexivity.
  - exists s'. split; [exact E | exact Hfl].
Defined.

Lemma FetchPageImpl_miss_evicts_replacer_front_witness :
  exists s',
    BufferPoolManager.FetchPageImpl 6 evictable_pool = Returned (Some 0, s') /\
    BufferPoolManager.page_table_ s' !! 6 = Some 0 /\
    BufferPoolManager.page_table_ s' !! 5 = None.
Proof.
  destruct (FetchPageImpl_miss_evicts_replacer_front evictable_pool 6 0 []
              (BufferPoolManager.mkPage (replicate PAGE_SIZE 0) 5 1 true)
              evictable_pool_wf)
    as (s' & E & H6 & H5 & _).
  - vm_compute. reflexivity.
  - vm_compute. reflexivity.
  - vm_compute. reflexivity.
  - vm_compute. reflexivity.
  - exists s'. split; [exact E |]. split; [exact H6 | exact H5].
Defined.

Lemma Fetch_and_NewPage_fail_when_exhausted_witness :
  BufferPoolManager.FetchPageImpl 6 exhausted_pool
  = Returned (None, exhausted_pool) /\
  BufferPoolManager.NewPageImpl exhausted_pool
  = Returned (None, exhausted_pool).
Proof.
  apply (Fetch_and_NewPage_fail_when_exhausted exhausted_pool 6);
    vm_compute; reflexivity.
Defined.

Lemma UnpinPageImpl_keeps_pool_well_formed_witness :
  exists result s',
    BufferPoolManager.UnpinPageImpl 5 true exhausted_pool
    = Returned (result, s') /\
    pool_wf s'.
Proof.
  destruct (UnpinPageImpl_keeps_pool_well_formed exhausted_pool 5 true 0
              exhausted_pool_wf)
    as (result & s' & E & Hwf & _).
  - vm_compute. reflexivity.
  - exists result, s'. split; [exact E | exact Hwf].
Defined.

Lemma NewPageImpl_installs_blank_page_witness :
  exists result s',
    BufferPoolManager.NewPageImpl (fresh_pool 2) = Returned (result, s') /\
    pool_wf s'.
Proof.
  destruct (NewPageImpl_installs_blank_page (fresh_pool 2)
              (create_pool_wf 2 _))
    as (result & s' & E & Hwf & _).
  - reflexivity.
  - exists result, s'. split; [exact E | exact Hwf].
Defined.

Lemma Unpin_then_Fetch_evicts_pinned_page_witness :
  exists s1 s2,
    BufferPoolManager.UnpinPageImpl 5 false exhausted_pool
    = Returned (true, s1) /\
    pin_count_at s1 0 = Some 1 /\
    BufferPoolManager.FetchPageImpl 6 s1 = Returned (Some 0, s2) /\
    BufferPoolManager.page_table_ s2 !! 5 = None.
Proof.
  destruct (Unpin_then_Fetch_evicts_pinned_page exhausted_pool 5 6 false 0
              (BufferPoolManager.mkPage (replicate PAGE_SIZE 0) 5 1 false)
              exhausted_pool_wf)
    as (s1 & s2 & p1 & E1 & Hp1 & Hpin & E2 & H5 & _).
  - vm_compute. reflexivity.
  - vm_compute. reflexivity.
  - vm_compute. reflexivity.
  - vm_compute. reflexivity.
  - simpl. lia.
  - vm_compute. reflexivity.
  - exists s1, s2. split; [exact E1 |]. split; [| split; [exact E2 | exact H5]].
    apply page_at_in_range in Hp1 as [_ Hlook].
    unfold pin_count_at. rewrite Hlook. simpl. now rewrite Hpin.
Defined.
